(** * Frost compiler: the lexer and its token factory

    A shallow embedding of [src/lexer/lexer.c] and [src/token/token.c],
    with the macros of [inc/utils.h].

    - A [char] is an [ascii]; a [char *] buffer is a [string] followed by the
      terminator that every C string carries.
    - [size_t] is the 64-bit unsigned type of an LP64 target: a [Z] whose
      wrap-around is written with [size_wrap].
    - The functions take the lexer by pointer.  The program only ever has one
      lexer object, so the store holds that object and a pointer is either
      [Null] or [Obj], the address of the object.
    - [calloc], [realloc] and [strdup] may fail: the store carries the
      outcomes of the requests still to come.
    - A read outside a buffer has no meaning in C: it ends the run with
      [OutOfBounds].  Loops spend fuel, and a loop that is still running when
      the fuel is gone ends the run with [OutOfFuel]. *)

From Stdlib Require Import ZArith Lia List Bool Ascii String.
Import ListNotations.
Local Open Scope string_scope.
Local Open Scope Z_scope.

(** ** The C library, as far as the lexer uses it *)

Module C.

Definition NUL : ascii := Ascii.zero.

Definition SIZE_MAX : Z := 2 ^ 64 - 1.
Definition PTRDIFF_MAX : Z := 2 ^ 63 - 1.
Definition INT_MIN : Z := - 2 ^ 31.
Definition INT_MAX : Z := 2 ^ 31 - 1.

(** Arithmetic on [size_t] is modulo [2 ^ 64]; an [int] operand is converted
    to [size_t] first, which is the same reduction. *)
Definition size_wrap (z : Z) : Z := z mod 2 ^ 64.

(** [ENOMEM] of <errno.h> on Linux. *)
Definition ENOMEM : Z := 12.

(** [strlen]: the number of characters before the first terminator. *)
Fixpoint strlen (s : string) : nat :=
  match s with
  | EmptyString => 0%nat
  | String c r => if Ascii.eqb c NUL then 0%nat else S (strlen r)
  end.

(** The byte at offset [n] of the buffer: the characters of [s], then the
    terminator. *)
Fixpoint char_at (s : string) (n : nat) : ascii :=
  match s, n with
  | EmptyString, _ => NUL
  | String c _, O => c
  | String _ r, S n' => char_at r n'
  end.

(** [s[i]]: defined for the [String.length s + 1] bytes of the buffer. *)
Definition load (s : string) (i : Z) : option ascii :=
  if (0 <=? i) && (i <=? Z.of_nat (String.length s))
  then Some (char_at s (Z.to_nat i))
  else None.

(** The C string held in a buffer: what [strdup] copies. *)
Fixpoint c_str (s : string) : string :=
  match s with
  | EmptyString => EmptyString
  | String c r => if Ascii.eqb c NUL then EmptyString else String c (c_str r)
  end.

(** <ctype.h> in the "C" locale. *)
Definition in_range (lo hi c : ascii) : bool :=
  (N_of_ascii lo <=? N_of_ascii c)%N && (N_of_ascii c <=? N_of_ascii hi)%N.

Definition isdigit (c : ascii) : bool := in_range "0" "9" c.
Definition isalpha (c : ascii) : bool :=
  in_range "A" "Z" c || in_range "a" "z" c.
Definition isalnum (c : ascii) : bool := isalpha c || isdigit c.

End C.

(** ** token.h *)

Module Token.

Inductive token_type_t : Set :=
| TOKEN_ID
| TOKEN_IF | TOKEN_ELSE | TOKEN_WHILE | TOKEN_FOR | TOKEN_RETURN | TOKEN_INT
| TOKEN_FLOAT | TOKEN_CHAR | TOKEN_VOID | TOKEN_STRUCT | TOKEN_CONST
| TOKEN_IDENTIFIER
| TOKEN_LITERAL_INT | TOKEN_LITERAL_FLOAT | TOKEN_LITERAL_CHAR
| TOKEN_LITERAL_STRING
| TOKEN_PLUS | TOKEN_MINUS | TOKEN_MULTIPLY | TOKEN_DIVIDE | TOKEN_MODULO
| TOKEN_EQUAL | TOKEN_NOT_EQUAL | TOKEN_LESS | TOKEN_GREATER
| TOKEN_LESS_EQUAL | TOKEN_GREATER_EQUAL
| TOKEN_AND | TOKEN_OR | TOKEN_NOT
| TOKEN_ASSIGN | TOKEN_PLUS_ASSIGN | TOKEN_MINUS_ASSIGN
| TOKEN_MULTIPLY_ASSIGN | TOKEN_DIVIDE_ASSIGN
| TOKEN_BITWISE_AND | TOKEN_BITWISE_OR | TOKEN_BITWISE_XOR
| TOKEN_BITWISE_NOT | TOKEN_LEFT_SHIFT | TOKEN_RIGHT_SHIFT
| TOKEN_POINTER | TOKEN_ADDRESS
| TOKEN_SEMICOLON | TOKEN_COMMA | TOKEN_PERIOD | TOKEN_COLON
| TOKEN_DOUBLE_COLON | TOKEN_LEFT_PAREN | TOKEN_RIGHT_PAREN
| TOKEN_LEFT_BRACE | TOKEN_RIGHT_BRACE | TOKEN_LEFT_BRACKET
| TOKEN_RIGHT_BRACKET
| TOKEN_COMMENT
| TOKEN_ERROR
| TOKEN_EOF.

(** The enumerator values of [enum frostTokens]. *)
Definition token_code (t : token_type_t) : Z :=
  match t with
  | TOKEN_ID => 0
  | TOKEN_IF => 1 | TOKEN_ELSE => 2 | TOKEN_WHILE => 3 | TOKEN_FOR => 4
  | TOKEN_RETURN => 5 | TOKEN_INT => 6 | TOKEN_FLOAT => 7 | TOKEN_CHAR => 8
  | TOKEN_VOID => 9 | TOKEN_STRUCT => 10 | TOKEN_CONST => 11
  | TOKEN_IDENTIFIER => 12
  | TOKEN_LITERAL_INT => 13 | TOKEN_LITERAL_FLOAT => 14
  | TOKEN_LITERAL_CHAR => 15 | TOKEN_LITERAL_STRING => 16
  | TOKEN_PLUS => 17 | TOKEN_MINUS => 18 | TOKEN_MULTIPLY => 19
  | TOKEN_DIVIDE => 20 | TOKEN_MODULO => 21
  | TOKEN_EQUAL => 22 | TOKEN_NOT_EQUAL => 23 | TOKEN_LESS => 24
  | TOKEN_GREATER => 25 | TOKEN_LESS_EQUAL => 26 | TOKEN_GREATER_EQUAL => 27
  | TOKEN_AND => 28 | TOKEN_OR => 29 | TOKEN_NOT => 30
  | TOKEN_ASSIGN => 31 | TOKEN_PLUS_ASSIGN => 32 | TOKEN_MINUS_ASSIGN => 33
  | TOKEN_MULTIPLY_ASSIGN => 34 | TOKEN_DIVIDE_ASSIGN => 35
  | TOKEN_BITWISE_AND => 36 | TOKEN_BITWISE_OR => 37 | TOKEN_BITWISE_XOR => 38
  | TOKEN_BITWISE_NOT => 39 | TOKEN_LEFT_SHIFT => 40 | TOKEN_RIGHT_SHIFT => 41
  | TOKEN_POINTER => 42 | TOKEN_ADDRESS => 43
  | TOKEN_SEMICOLON => 44 | TOKEN_COMMA => 45 | TOKEN_PERIOD => 46
  | TOKEN_COLON => 47 | TOKEN_DOUBLE_COLON => 48 | TOKEN_LEFT_PAREN => 49
  | TOKEN_RIGHT_PAREN => 50 | TOKEN_LEFT_BRACE => 51 | TOKEN_RIGHT_BRACE => 52
  | TOKEN_LEFT_BRACKET => 53 | TOKEN_RIGHT_BRACKET => 54
  | TOKEN_COMMENT => 55
  | TOKEN_ERROR => 56
  | TOKEN_EOF => 57
  end.

(** [struct tokenInstance]. *)
Record token_t : Set := mkToken { lexeme : string; type : token_type_t }.

End Token.

(** ** The store and the monad of the embedding *)

Module Machine.

(** [struct frostLexer]. *)
Record lexer_t : Set := mkLexer {
  source : string;
  current_char : ascii;
  source_size : Z;
  index : Z
}.

(** The allocator: the head says whether the next request is granted; when
    the list is spent every request is granted. *)
Definition allocator : Set := list bool.

Record store : Set := mkStore { lexer_obj : lexer_t; heap : allocator }.

(** A nullable pointer to the lexer object of the store. *)
Inductive lexer_ptr : Set := Null | Obj.

Inductive outcome (A : Type) : Type :=
| Done (a : A)
| OutOfBounds
| OutOfFuel.
Arguments Done {A} a.
Arguments OutOfBounds {A}.
Arguments OutOfFuel {A}.

Definition M (A : Type) : Type := store -> outcome (A * store).

Definition ret {A} (a : A) : M A := fun st => Done (a, st).

Definition bind {A B} (c : M A) (k : A -> M B) : M B :=
  fun st =>
    match c st with
    | Done (a, st') => k a st'
    | OutOfBounds => OutOfBounds
    | OutOfFuel => OutOfFuel
    end.

Definition out_of_fuel {A} : M A := fun _ => OutOfFuel.

(** [*lexer], for a pointer that is not null. *)
Definition deref : M lexer_t := fun st => Done (lexer_obj st, st).

Definition set_index (i : Z) : M unit :=
  fun st =>
    let l := lexer_obj st in
    Done (tt, mkStore (mkLexer (source l) (current_char l) (source_size l) i)
                      (heap st)).

Definition set_current_char (c : ascii) : M unit :=
  fun st =>
    let l := lexer_obj st in
    Done (tt, mkStore (mkLexer (source l) c (source_size l) (index l))
                      (heap st)).

(** [lexer->source[i]]. *)
Definition source_at (i : Z) : M ascii :=
  fun st =>
    match C.load (source (lexer_obj st)) i with
    | Some c => Done (c, st)
    | None => OutOfBounds
    end.

(** One request to [calloc], [realloc] or [strdup]: [true] when the block is
    granted, [false] when the call returns [NULL]. *)
Definition grant (h : allocator) : bool * allocator :=
  match h with
  | [] => (true, [])
  | b :: h' => (b, h')
  end.

Definition allocate : M bool :=
  fun st => let (b, h) := grant (heap st) in Done (b, mkStore (lexer_obj st) h).

End Machine.

Declare Scope frost_scope.
Notation "x <- c ;; k" := (Machine.bind c (fun x => k))
  (at level 61, c at next level, right associativity) : frost_scope.
Notation "c ;; k" := (Machine.bind c (fun _ => k))
  (at level 61, right associativity) : frost_scope.
Local Open Scope frost_scope.

(** ** token.c *)

Module TokenImpl.
Import Token Machine.

Definition Frost_initToken (lexeme : option string) (type : token_type_t)
  : M (option token_t) :=
  match lexeme with
  | None => ret None                        (* lexeme == NULL *)
  | Some text =>
      granted <- allocate ;;                (* calloc(1u, sizeof(token_t)) *)
      if negb granted then ret None
      else
        copied <- allocate ;;               (* strdup(lexeme) *)
        if negb copied then ret None
        else ret (Some (mkToken (C.c_str text) type))
  end.

End TokenImpl.

(** ** lexer.c *)

Module Lexer.
Import Token Machine TokenImpl.

Definition FUNCTION_SUCESS : Z := 0.

Definition Frost_initLexer (source : option string) (h : allocator)
  : option lexer_t * allocator :=
  match source with
  | None => (None, h)                       (* source == NULL *)
  | Some text =>
      let (granted, h') := grant h in       (* calloc(1u, sizeof(lexer_t)) *)
      if negb granted then (None, h')
      else
        let size := Z.of_nat (C.strlen text) in
        let idx := 0 in
        (Some (mkLexer text (C.char_at text (Z.to_nat idx)) size idx), h')
  end.

Definition Frost_lexerAdvance (lexer : lexer_ptr) : M Z :=
  match lexer with
  | Null => ret (- C.ENOMEM)
  | Obj =>
      l <- deref ;;
      if (index l <? source_size l) && negb (Ascii.eqb (current_char l) C.NUL)
      then
        set_index (C.size_wrap (index l + 1)) ;;
        l' <- deref ;;
        c <- source_at (index l') ;;
        set_current_char c ;;
        ret FUNCTION_SUCESS
      else ret FUNCTION_SUCESS
  end.

Definition Frost_lexerAdvanceWith (lexer : lexer_ptr) (token : option token_t)
  : M (option token_t) :=
  match lexer with
  | Null => ret None
  | Obj =>
      match token with
      | None => ret None
      | Some _ => Frost_lexerAdvance lexer ;; ret token
      end
  end.

Definition is_blank (c : ascii) : bool :=
  Ascii.eqb c (ascii_of_nat 13) || Ascii.eqb c (ascii_of_nat 10)
  || Ascii.eqb c " " || Ascii.eqb c (ascii_of_nat 9).

Fixpoint skip_blanks (fuel : nat) : M unit :=
  match fuel with
  | O => out_of_fuel
  | S fuel' =>
      l <- deref ;;
      if is_blank (current_char l)
      then Frost_lexerAdvance Obj ;; skip_blanks fuel'
      else ret tt
  end.

(** The null check jumps to the exit without assigning [ret]. *)
Definition Frost_lexerSkipWhiteSpace (lexer : lexer_ptr) (fuel : nat) : M Z :=
  match lexer with
  | Null => ret FUNCTION_SUCESS
  | Obj => skip_blanks fuel ;; ret FUNCTION_SUCESS
  end.

(** The loop of [Frost_lexerParseID]; [value] is the text gathered so far. *)
Fixpoint gather (fuel : nat) (value : string) : M (option token_t) :=
  match fuel with
  | O => out_of_fuel
  | S fuel' =>
      l <- deref ;;
      if C.isalnum (current_char l)
      then
        grown <- allocate ;;                (* realloc(value, strlen + 2) *)
        if negb grown then ret None
        else
          let value' := value ++ String (current_char l) EmptyString in
          Frost_lexerAdvance Obj ;;
          gather fuel' value'
      else Frost_initToken (Some value) TOKEN_ID
  end.

Definition Frost_lexerParseID (lexer : lexer_ptr) (fuel : nat)
  : M (option token_t) :=
  match lexer with
  | Null => ret None
  | Obj =>
      granted <- allocate ;;                (* calloc(1, sizeof(char)) *)
      if negb granted then ret None
      else gather fuel EmptyString
  end.

Definition Frost_lexerPeek (lexer : lexer_ptr) (offset : Z) : M ascii :=
  match lexer with
  | Null => ret " "%char
  | Obj =>
      l <- deref ;;
      let sum := C.size_wrap (index l + C.size_wrap offset) in
      source_at (if sum <? source_size l then sum else source_size l)
  end.

Section Scanner.

(** [Frost_nextToken] tests the current character with [isaalpha], a name
    that neither the repository nor <ctype.h> declares: the scanner is taken
    over any such classifier. *)
Variable isaalpha : ascii -> bool.

Fixpoint scan (fuel : nat) : M (option token_t) :=
  match fuel with
  | O => out_of_fuel
  | S fuel' =>
      l <- deref ;;
      if negb (Ascii.eqb (current_char l) C.NUL)
      then
        if isaalpha (current_char l)
        then
          id <- Frost_lexerParseID Obj fuel' ;;
          Frost_lexerAdvanceWith Obj id
        else
          (* switch (current_char) { case ':': break; } *)
          scan fuel'
      else Frost_initToken None TOKEN_EOF
  end.

Definition Frost_nextToken (lexer : lexer_ptr) (fuel : nat)
  : M (option token_t) :=
  match lexer with
  | Null => ret None
  | Obj => scan fuel
  end.

End Scanner.

(** The store once [Frost_initLexer] has built the lexer of [text], with the
    allocator [h] left for the calls that follow. *)
Definition start (text : string) (h : allocator) : store :=
  mkStore (mkLexer text (C.char_at text 0) (Z.of_nat (C.strlen text)) 0) h.

End Lexer.

(** ** Vocabulary of the statements *)

Module Cursor.
Import C Token Machine TokenImpl Lexer.

(** What [Frost_initLexer] captures and no function changes: the size is the
    length of the source, an object is no larger than [PTRDIFF_MAX], and the
    index is a [size_t]. *)
Definition captured (l : lexer_t) : bool :=
  (source_size l =? Z.of_nat (strlen (source l)))
  && (source_size l <=? PTRDIFF_MAX)
  && (0 <=? index l).

(** The cursor invariant: the index is within the source and the current
    character is the one under it. *)
Definition lexer_inv (l : lexer_t) : bool :=
  captured l
  && (index l <=? source_size l)
  && Ascii.eqb (current_char l) (char_at (source l) (Z.to_nat (index l))).

(** The test of [Frost_lexerAdvance]. *)
Definition can_advance (l : lexer_t) : bool :=
  (index l <? source_size l) && negb (Ascii.eqb (current_char l) NUL).

(** The lexer with its cursor placed at index [i]. *)
Definition at_index (l : lexer_t) (i : Z) : lexer_t :=
  mkLexer (source l) (char_at (source l) (Z.to_nat i)) (source_size l) i.

(** The lexer after a successful step of the cursor. *)
Definition moved (l : lexer_t) : lexer_t := at_index l (index l + 1).

Definition advanced (st : store) : store :=
  if can_advance (lexer_obj st)
  then mkStore (moved (lexer_obj st)) (heap st)
  else st.

(** [l'] is a later state of the cursor [l]: it satisfies the invariant over
    the same source and length, and its index is not smaller. *)
Definition follows (l l' : lexer_t) : Prop :=
  lexer_inv l' = true
  /\ index l <= index l'
  /\ source l' = source l
  /\ source_size l' = source_size l.

(** The characters between the cursor and the end of the source. *)
Definition remaining (l : lexer_t) : nat :=
  Z.to_nat (source_size l - index l).

(** An allocator that grants every request. *)
Definition plentiful (h : allocator) : bool := forallb (fun b => b) h.

(** [s] without its first [n] characters. *)
Fixpoint drop (n : nat) (s : string) : string :=
  match n, s with
  | O, _ => s
  | S _, EmptyString => EmptyString
  | S n', String _ r => drop n' r
  end.

(** The longest prefix of [s] made of letters and digits. *)
Fixpoint run (s : string) : string :=
  match s with
  | EmptyString => EmptyString
  | String c r => if isalnum c then String c (run r) else EmptyString
  end.

(** The index that [Frost_lexerPeek] reads: the sum of cursor and offset when
    it falls in the source; the end of the source when the sum lies beyond
    it, and also when the sum is negative, which [size_t] turns into a huge
    value. *)
Definition peek_index (l : lexer_t) (offset : Z) : Z :=
  if index l + offset <? 0 then source_size l
  else Z.min (index l + offset) (source_size l).

(** The clamp of the specification. *)
Definition clamp (x lo hi : Z) : Z := Z.max lo (Z.min x hi).

(** [n] calls of [Frost_lexerAdvance] in a row. *)
Fixpoint advance_times (n : nat) : M Z :=
  match n with
  | O => ret FUNCTION_SUCESS
  | S n' => Frost_lexerAdvance Obj ;; advance_times n'
  end.

End Cursor.

(** ** utils.h *)

Module Utils.

(** The macros are read at the type of their literals [1U], [unsigned int]:
    32 bits, arithmetic modulo [2 ^ 32]. *)
Definition UINT_MAX : Z := 2 ^ 32 - 1.

Definition uint_wrap (z : Z) : Z := z mod 2 ^ 32.

(** [~z] on 32 bits. *)
Definition uint_not (z : Z) : Z := uint_wrap (Z.lnot z).

Definition is_uint (z : Z) : bool := (0 <=? z) && (z <=? UINT_MAX).

(** [v << pos] and [v >> pos]: the behaviour is undefined in C when [pos] is
    negative or not less than the width. *)
Definition shl (v pos : Z) : option Z :=
  if (0 <=? pos) && (pos <? 32) then Some (uint_wrap (Z.shiftl v pos))
  else None.

Definition shr (v pos : Z) : option Z :=
  if (0 <=? pos) && (pos <? 32) then Some (Z.shiftr v pos) else None.

(** The branch of [ARCH_ALIGNMENT] taken on x86_64 and ARM64. *)
Definition ARCH_ALIGNMENT : Z := 16.

Definition MAX (param_a param_b : Z) : Z :=
  if param_a >? param_b then param_a else param_b.

Definition MIN (param_a param_b : Z) : Z :=
  if param_a <? param_b then param_a else param_b.

Definition ALIGN_UP (x align : Z) : Z :=
  Z.land (uint_wrap (x + uint_wrap (align - 1)))
         (uint_not (uint_wrap (align - 1))).

Definition ALIGN_DOWN (x align : Z) : Z :=
  Z.land x (uint_not (uint_wrap (align - 1))).

Definition ALIGN_UP_ARCH (x : Z) : Z := ALIGN_UP x ARCH_ALIGNMENT.

Definition ALIGN_DOWN_ARCH (x : Z) : Z := ALIGN_DOWN x ARCH_ALIGNMENT.

(** The three assigning macros give the new value of [var]. *)
Definition SET_BIT (var pos : Z) : option Z :=
  option_map (fun m => Z.lor var m) (shl 1 pos).

Definition CLEAR_BIT (var pos : Z) : option Z :=
  option_map (fun m => Z.land var (uint_not m)) (shl 1 pos).

Definition TOGGLE_BIT (var pos : Z) : option Z :=
  option_map (fun m => Z.lxor var m) (shl 1 pos).

Definition CHECK_BIT (var pos : Z) : option Z :=
  option_map (fun s => Z.land s 1) (shr var pos).

End Utils.

(** ** The release functions of token.c and lexer.c *)

Module Release.
Import Token.

(** The heap blocks the release functions meet: a character buffer, a
    [token_t] and a [lexer_t], with their pointer fields as addresses. *)
Inductive block : Set :=
| Chars (text : string)
| TokenBlock (lexeme : option nat) (type : token_type_t)
| LexerBlock (source : option nat) (current_char : ascii)
             (source_size index : Z).

(** A block is live until it is passed to [free]; the bytes of a freed
    block stay where they were. *)
Inductive status : Set := Live | Freed.

(** The heap: the block at each address with its status; [None] where no
    block was ever allocated. *)
Definition memory : Type := nat -> option (status * block).





(** A run returns, or is ended: by [free] on a pointer that is not a live
    block, or by an access through a pointer under which there is no block
    of the type at all. *)
Inductive run (A : Type) : Type :=
| Returns (a : A) (m : memory)
| InvalidFree (m : memory)
| WildAccess (m : memory).
Arguments Returns {A} a m.
Arguments InvalidFree {A} m.
Arguments WildAccess {A} m.









Definition FUNCTION_SUCESS : Z := 0.



End Release.

(** ** More vocabulary *)

Module Text.
Import C.

(** The longest prefix of [s] whose characters satisfy [p]. *)
Fixpoint span (p : ascii -> bool) (s : string) : string :=
  match s with
  | EmptyString => EmptyString
  | String c r => if p c then String c (span p r) else EmptyString
  end.

(** Every character of [s] satisfies [p]. *)
Fixpoint all_chars (p : ascii -> bool) (s : string) : bool :=
  match s with
  | EmptyString => true
  | String c r => p c && all_chars p r
  end.

(** [2 ^ k] for some [k] below the width of [unsigned int]. *)
Definition power_of_two (a : Z) : Prop := exists k, 0 <= k < 32 /\ a = 2 ^ k.

End Text.

(** * Properties *)

(** ** Facts about the C library model *)

Module CFacts.
Import C.

Lemma strlen_le_length (s : string) : (strlen s <= String.length s)%nat.
Proof.
  induction s as [|c r IH]; simpl; [lia|].
  destruct (Ascii.eqb c NUL); lia.
Qed.

Lemma char_at_strlen (s : string) : char_at s (strlen s) = NUL.
Proof.
  induction s as [|c r IH]; simpl; [reflexivity|].
  destruct (Ascii.eqb_spec c NUL) as [->|Hc]; [reflexivity|exact IH].
Qed.

Lemma char_at_before_strlen (s : string) (n : nat) :
  (n < strlen s)%nat -> char_at s n <> NUL.
Proof.
  revert n; induction s as [|c r IH]; simpl; intros n Hn; [lia|].
  destruct (Ascii.eqb_spec c NUL) as [->|Hc]; [lia|].
  destruct n as [|n]; [exact Hc|].
  apply IH; lia.
Qed.

(** Within a C string, a character that is not the terminator is not the
    last byte. *)
Lemma char_at_not_NUL (s : string) (n : nat) :
  (n <= strlen s)%nat -> char_at s n <> NUL -> (n < strlen s)%nat.
Proof.
  intros Hle Hc.
  destruct (Nat.eq_dec n (strlen s)) as [->|Hne]; [|lia].
  now rewrite char_at_strlen in Hc.
Qed.

Lemma load_inside (s : string) (i : Z) :
  0 <= i <= Z.of_nat (String.length s) ->
  load s i = Some (char_at s (Z.to_nat i)).
Proof.
  intros [Hlo Hhi]; unfold load.
  apply Z.leb_le in Hlo; apply Z.leb_le in Hhi.
  now rewrite Hlo, Hhi.
Qed.

Lemma size_wrap_small (z : Z) : 0 <= z <= SIZE_MAX -> size_wrap z = z.
Proof.
  unfold size_wrap, SIZE_MAX; intros H; apply Z.mod_small; lia.
Qed.

Lemma isalnum_not_NUL (c : ascii) : isalnum c = true -> c <> NUL.
Proof. intros H ->; discriminate H. Qed.

Lemma eqb_NUL_false (c : ascii) : c <> NUL -> Ascii.eqb c NUL = false.
Proof. intros H; now apply Ascii.eqb_neq. Qed.

End CFacts.

(** ** The lexer invariant *)

Module LexerFacts.
Import C CFacts Token Machine TokenImpl Lexer Cursor.

Lemma captured_spec (l : lexer_t) :
  captured l = true <->
  source_size l = Z.of_nat (strlen (source l))
  /\ source_size l <= PTRDIFF_MAX /\ 0 <= index l.
Proof.
  unfold captured.
  rewrite !andb_true_iff, Z.eqb_eq, !Z.leb_le; tauto.
Qed.

Lemma lexer_inv_spec (l : lexer_t) :
  lexer_inv l = true <->
  captured l = true
  /\ index l <= source_size l
  /\ current_char l = char_at (source l) (Z.to_nat (index l)).
Proof.
  unfold lexer_inv.
  rewrite !andb_true_iff, Z.leb_le, Ascii.eqb_eq; tauto.
Qed.

(** Under the invariant the two tests of [Frost_lexerAdvance] agree. *)
Lemma inv_not_NUL_inside (l : lexer_t) :
  lexer_inv l = true -> current_char l <> NUL -> index l < source_size l.
Proof.
  intros Hinv Hc.
  apply lexer_inv_spec in Hinv; destruct Hinv as (Hcap & Hle & Hcur).
  apply captured_spec in Hcap; destruct Hcap as (Hsz & _ & Hlo).
  rewrite Hcur in Hc.
  apply char_at_not_NUL in Hc; lia.
Qed.

Lemma inv_inside_not_NUL (l : lexer_t) :
  lexer_inv l = true -> index l < source_size l -> current_char l <> NUL.
Proof.
  intros Hinv Hlt.
  apply lexer_inv_spec in Hinv; destruct Hinv as (Hcap & Hle & Hcur).
  apply captured_spec in Hcap; destruct Hcap as (Hsz & _ & Hlo).
  rewrite Hcur; apply char_at_before_strlen; lia.
Qed.

Lemma advance_eval (st : store) :
  captured (lexer_obj st) = true ->
  Frost_lexerAdvance Obj st = Done (FUNCTION_SUCESS, advanced st).
Proof.
  intros Hcap; apply captured_spec in Hcap; destruct Hcap as (Hsz & Hmax & Hlo).
  unfold Frost_lexerAdvance, advanced, can_advance, bind, deref.
  destruct st as [[src cur size idx] h]; simpl in *.
  destruct (idx <? size) eqn:Hlt; simpl; [|reflexivity].
  destruct (Ascii.eqb cur NUL); simpl; [reflexivity|].
  apply Z.ltb_lt in Hlt.
  pose proof (strlen_le_length src) as Hlen.
  unfold source_at; simpl.
  rewrite size_wrap_small by (unfold SIZE_MAX, PTRDIFF_MAX in *; lia).
  rewrite load_inside by lia.
  reflexivity.
Qed.

Lemma advanced_heap (st : store) : heap (advanced st) = heap st.
Proof. unfold advanced; now destruct (can_advance _). Qed.

Lemma advanced_inv (st : store) :
  lexer_inv (lexer_obj st) = true -> lexer_inv (lexer_obj (advanced st)) = true.
Proof.
  intros Hinv; unfold advanced, can_advance.
  destruct (index (lexer_obj st) <? source_size (lexer_obj st)) eqn:Hlt;
    simpl; [|exact Hinv].
  destruct (Ascii.eqb _ NUL); simpl; [exact Hinv|].
  apply Z.ltb_lt in Hlt.
  apply lexer_inv_spec in Hinv; destruct Hinv as (Hcap & Hle & Hcur).
  apply captured_spec in Hcap; destruct Hcap as (Hsz & Hmax & Hlo).
  apply lexer_inv_spec; simpl; repeat split; try lia.
  apply captured_spec; simpl; repeat split; lia.
Qed.

Lemma advanced_index (st : store) :
  index (lexer_obj st) <= index (lexer_obj (advanced st)).
Proof.
  unfold advanced; destruct (can_advance _); simpl; lia.
Qed.

(** Under the invariant a character that is not the terminator is always
    stepped over. *)
Lemma advanced_moves (st : store) :
  lexer_inv (lexer_obj st) = true ->
  current_char (lexer_obj st) <> NUL ->
  advanced st = mkStore (moved (lexer_obj st)) (heap st).
Proof.
  intros Hinv Hc; unfold advanced, can_advance.
  pose proof (inv_not_NUL_inside _ Hinv Hc) as Hlt.
  apply Z.ltb_lt in Hlt; rewrite Hlt, (eqb_NUL_false _ Hc); reflexivity.
Qed.

(** *** Construction *)

(** [start] is the store that [Frost_initLexer] builds when its request for
    memory is granted. *)
Lemma initLexer_start (text : string) (h h' : allocator) :
  grant h = (true, h') ->
  Frost_initLexer (Some text) h = (Some (lexer_obj (start text h')), h').
Proof. intros Hg; unfold Frost_initLexer; rewrite Hg; reflexivity. Qed.

(** Every lexer that [Frost_initLexer] returns satisfies the invariant, with
    the cursor on the first character. *)
Lemma initLexer_inv (source : option string) (h h' : allocator) (l : lexer_t) :
  Frost_initLexer source h = (Some l, h') ->
  Z.of_nat (strlen (Machine.source l)) <= PTRDIFF_MAX ->
  lexer_inv l = true /\ index l = 0.
Proof.
  unfold Frost_initLexer; destruct source as [text|]; [|discriminate].
  destruct (grant h) as [[|] h1]; simpl; [|discriminate].
  intros Heq Hmax; injection Heq as <- _; simpl in *.
  split; [|reflexivity].
  apply lexer_inv_spec; simpl; repeat split; try lia.
  apply captured_spec; simpl; repeat split; lia.
Qed.

Lemma initLexer_null (h : allocator) : Frost_initLexer None h = (None, h).
Proof. reflexivity. Qed.

(** *** Allocation *)

Lemma allocate_any (st : store) :
  exists b h, allocate st = Done (b, mkStore (lexer_obj st) h).
Proof.
  unfold allocate; destruct (grant (heap st)) as [b h]; eauto.
Qed.

Lemma allocate_plentiful (st : store) :
  plentiful (heap st) = true ->
  exists h, allocate st = Done (true, mkStore (lexer_obj st) h)
            /\ plentiful h = true.
Proof.
  unfold allocate, plentiful; destruct (heap st) as [|b h]; simpl; intros Hp.
  - exists []; split; reflexivity.
  - apply andb_true_iff in Hp; destruct Hp as [-> Hp]; eauto.
Qed.

Lemma initToken_any (lx : option string) (t : token_type_t) (st : store) :
  exists tok h, Frost_initToken lx t st = Done (tok, mkStore (lexer_obj st) h).
Proof.
  destruct lx as [text|]; simpl; [|destruct st; unfold ret; eauto].
  unfold bind.
  destruct (allocate_any st) as (b1 & h1 & ->).
  destruct b1; simpl; [|unfold ret; eauto].
  destruct (allocate_any (mkStore (lexer_obj st) h1)) as (b2 & h2 & ->); simpl.
  destruct b2; simpl; unfold ret; eauto.
Qed.

Lemma initToken_plentiful (text : string) (t : token_type_t) (st : store) :
  plentiful (heap st) = true ->
  exists h, Frost_initToken (Some text) t st
            = Done (Some (mkToken (c_str text) t), mkStore (lexer_obj st) h)
            /\ plentiful h = true.
Proof.
  intros Hp; simpl; unfold bind.
  destruct (allocate_plentiful st Hp) as (h1 & -> & Hp1); simpl.
  destruct (allocate_plentiful (mkStore (lexer_obj st) h1) Hp1)
    as (h2 & -> & Hp2); simpl.
  unfold ret; eauto.
Qed.

(** *** Text *)

Lemma drop_cases (s : string) (n : nat) :
  (drop n s = EmptyString /\ char_at s n = NUL)
  \/ drop n s = String (char_at s n) (drop (S n) s).
Proof.
  revert s; induction n as [|n IH]; intros [|c r]; simpl; auto.
Qed.

Lemma run_at_alnum (s : string) (n : nat) :
  isalnum (char_at s n) = true ->
  run (drop n s) = String (char_at s n) (run (drop (S n) s)).
Proof.
  intros Hc; destruct (drop_cases s n) as [[_ Hnul]|Heq].
  - rewrite Hnul in Hc; discriminate Hc.
  - rewrite Heq at 1; simpl; now rewrite Hc.
Qed.

Lemma run_at_other (s : string) (n : nat) :
  isalnum (char_at s n) = false -> run (drop n s) = EmptyString.
Proof.
  intros Hc; destruct (drop_cases s n) as [ [-> _] | -> ]; simpl;
    [reflexivity|].
  now rewrite Hc.
Qed.

Lemma c_str_run (s : string) : c_str (run s) = run s.
Proof.
  induction s as [|c r IH]; simpl; [reflexivity|].
  destruct (isalnum c) eqn:Hc; simpl; [|reflexivity].
  now rewrite (eqb_NUL_false _ (isalnum_not_NUL _ Hc)), IH.
Qed.

Lemma length_cons (c : ascii) (s : string) :
  Z.of_nat (String.length (String c s)) = 1 + Z.of_nat (String.length s).
Proof. simpl String.length; lia. Qed.

Lemma append_empty_r (s : string) : (s ++ EmptyString)%string = s.
Proof. induction s; simpl; congruence. Qed.

Lemma append_snoc (s t : string) (c : ascii) :
  ((s ++ String c EmptyString) ++ t)%string = (s ++ String c t)%string.
Proof. induction s; simpl; congruence. Qed.

(** *** The cursor *)

Lemma at_index_self (l : lexer_t) :
  lexer_inv l = true -> at_index l (index l) = l.
Proof.
  intros Hinv; apply lexer_inv_spec in Hinv; destruct Hinv as (_ & _ & Hcur).
  destruct l; unfold at_index; simpl in *; now rewrite Hcur.
Qed.

Lemma at_index_moved (l : lexer_t) (i : Z) :
  at_index (moved l) i = at_index l i.
Proof. reflexivity. Qed.

Lemma remaining_moved (l : lexer_t) :
  index l < source_size l -> S (remaining (moved l)) = remaining l.
Proof. unfold remaining; simpl; lia. Qed.

(** One round of a loop that steps over the current character. *)
Lemma advance_over (st : store) (h : allocator) :
  lexer_inv (lexer_obj st) = true ->
  current_char (lexer_obj st) <> NUL ->
  Frost_lexerAdvance Obj (mkStore (lexer_obj st) h)
  = Done (FUNCTION_SUCESS, mkStore (moved (lexer_obj st)) h)
  /\ lexer_inv (moved (lexer_obj st)) = true
  /\ S (remaining (moved (lexer_obj st))) = remaining (lexer_obj st).
Proof.
  intros Hinv Hc.
  pose proof (advanced_inv (mkStore (lexer_obj st) h) Hinv) as Hinv'.
  rewrite (advanced_moves (mkStore (lexer_obj st) h) Hinv Hc) in Hinv'.
  repeat split.
  - rewrite advance_eval.
    + now rewrite (advanced_moves (mkStore (lexer_obj st) h) Hinv Hc).
    + apply lexer_inv_spec in Hinv; tauto.
  - exact Hinv'.
  - apply remaining_moved, inv_not_NUL_inside; assumption.
Qed.

Lemma follows_refl (l : lexer_t) : lexer_inv l = true -> follows l l.
Proof. intros Hinv; unfold follows; repeat split; auto; lia. Qed.

Lemma follows_trans (l1 l2 l3 : lexer_t) :
  follows l1 l2 -> follows l2 l3 -> follows l1 l3.
Proof.
  unfold follows; intros (_ & Hle & Hsrc & Hsz) (Hinv & Hle' & Hsrc' & Hsz').
  repeat split; try assumption; try lia; congruence.
Qed.

Lemma follows_moved (l : lexer_t) :
  lexer_inv (moved l) = true -> follows l (moved l).
Proof. intros Hinv; unfold follows; simpl; repeat split; auto; lia. Qed.

Lemma follows_advanced (l : lexer_t) (h : allocator) :
  lexer_inv l = true -> follows l (lexer_obj (advanced (mkStore l h))).
Proof.
  intros Hinv.
  pose proof (advanced_inv (mkStore l h) Hinv) as Hinv'.
  revert Hinv'; unfold advanced; simpl.
  destruct (can_advance l); simpl; intros Hinv'.
  - apply follows_moved; assumption.
  - apply follows_refl; assumption.
Qed.

(** *** The loops *)

#[local] Arguments Frost_lexerAdvance : simpl never.
#[local] Arguments Frost_initToken : simpl never.
#[local] Arguments allocate : simpl never.

Lemma is_blank_not_NUL (c : ascii) : is_blank c = true -> c <> NUL.
Proof. intros H ->; discriminate H. Qed.

Lemma inv_current_char (l : lexer_t) :
  lexer_inv l = true ->
  current_char l = char_at (source l) (Z.to_nat (index l)) /\ 0 <= index l.
Proof.
  intros Hinv; apply lexer_inv_spec in Hinv; destruct Hinv as (Hcap & _ & Hcur).
  apply captured_spec in Hcap; tauto.
Qed.

(** The loop of [Frost_lexerSkipWhiteSpace] ends within the source. *)
Lemma skip_blanks_returns (fuel : nat) :
  forall (l : lexer_t) (h : allocator),
    lexer_inv l = true ->
    (remaining l < fuel)%nat ->
    exists l',
      skip_blanks fuel (mkStore l h) = Done (tt, mkStore l' h)
      /\ follows l l'
      /\ is_blank (current_char l') = false.
Proof.
  induction fuel as [|fuel IH]; intros l h Hinv Hfuel; [lia|].
  simpl; unfold bind, deref; simpl.
  destruct (is_blank (current_char l)) eqn:Hb.
  - pose proof (is_blank_not_NUL _ Hb) as Hc.
    destruct (advance_over (mkStore l h) h Hinv Hc) as (Hadv & Hinv' & Hrem).
    simpl in Hadv, Hinv', Hrem; rewrite Hadv.
    destruct (IH (moved l) h Hinv' ltac:(lia)) as (l' & Hrun & Hfol & Hnb).
    exists l'; split; [assumption|split; [|assumption]].
    apply (follows_trans _ _ _ (follows_moved l Hinv') Hfol).
  - exists l; unfold ret; split; [reflexivity|split; [|assumption]].
    apply follows_refl; assumption.
Qed.

(** The loop of [Frost_lexerParseID], whatever the allocator answers: it
    never reads outside the source, it keeps the invariant, and it only runs
    out of fuel when given less than the characters that remain. *)
Lemma gather_run (fuel : nat) :
  forall (value : string) (l : lexer_t) (h : allocator),
    lexer_inv l = true ->
    match gather fuel value (mkStore l h) with
    | Done (_, st') => follows l (lexer_obj st')
    | OutOfBounds => False
    | OutOfFuel => (fuel <= remaining l)%nat
    end.
Proof.
  induction fuel as [|fuel IH]; intros value l h Hinv; [simpl; lia|].
  simpl; unfold bind at 1, deref; simpl.
  destruct (isalnum (current_char l)) eqn:Hal.
  - pose proof (isalnum_not_NUL _ Hal) as Hc.
    unfold bind at 1.
    destruct (allocate_any (mkStore l h)) as (b & h1 & ->); simpl.
    destruct b; simpl; [|apply follows_refl; assumption].
    destruct (advance_over (mkStore l h) h1 Hinv Hc) as (Hadv & Hinv' & Hrem).
    simpl in Hadv, Hinv', Hrem; unfold bind; rewrite Hadv.
    specialize (IH (value ++ String (current_char l) EmptyString)%string
                   (moved l) h1 Hinv').
    destruct (gather fuel _ _) as [[tok st']| |]; simpl in IH; try lia.
    apply (follows_trans _ _ _ (follows_moved l Hinv') IH).
  - destruct (initToken_any (Some value) TOKEN_ID (mkStore l h))
      as (tok & h' & ->); simpl.
    apply follows_refl; assumption.
Qed.

(** With every request granted, the loop gathers the run of letters and
    digits under the cursor and leaves the cursor behind it. *)
Lemma gather_exact (fuel : nat) :
  forall (value : string) (l : lexer_t) (h : allocator),
    lexer_inv l = true ->
    plentiful h = true ->
    (remaining l < fuel)%nat ->
    let word := run (drop (Z.to_nat (index l)) (source l)) in
    let l' := at_index l (index l + Z.of_nat (String.length word)) in
    exists h',
      gather fuel value (mkStore l h)
      = Done (Some (mkToken (c_str (value ++ word)) TOKEN_ID), mkStore l' h')
      /\ plentiful h' = true
      /\ lexer_inv l' = true.
Proof.
  induction fuel as [|fuel IH]; intros value l h Hinv Hp Hfuel; [lia|].
  destruct (inv_current_char l Hinv) as (Hcur & Hlo).
  simpl; unfold bind at 1, deref; simpl.
  destruct (isalnum (current_char l)) eqn:Hal.
  - pose proof (isalnum_not_NUL _ Hal) as Hc.
    unfold bind at 1.
    destruct (allocate_plentiful (mkStore l h) Hp) as (h1 & -> & Hp1); simpl.
    destruct (advance_over (mkStore l h) h1 Hinv Hc) as (Hadv & Hinv' & Hrem).
    simpl in Hadv, Hinv', Hrem; unfold bind; rewrite Hadv.
    destruct (IH (value ++ String (current_char l) EmptyString)%string
                 (moved l) h1 Hinv' Hp1 ltac:(lia))
      as (h' & Hrun & Hp' & Hi).
    simpl in Hrun, Hi.
    replace (Z.to_nat (index l + 1)) with (S (Z.to_nat (index l))) in Hrun, Hi
      by lia.
    rewrite Hcur in Hal.
    rewrite (run_at_alnum _ _ Hal), length_cons, Z.add_assoc.
    rewrite <- Hcur.
    rewrite append_snoc in Hrun.
    rewrite at_index_moved in Hrun, Hi.
    exists h'; repeat split; assumption.
  - rewrite Hcur in Hal; rewrite (run_at_other _ _ Hal); simpl String.length.
    rewrite Z.add_0_r, append_empty_r, (at_index_self l Hinv).
    destruct (initToken_plentiful value TOKEN_ID (mkStore l h) Hp)
      as (h' & Hrun & Hp').
    exists h'; repeat split; assumption.
Qed.

(** *** [Frost_lexerParseID] and [Frost_lexerPeek] *)

Lemma parseID_run (fuel : nat) (l : lexer_t) (h : allocator) :
  lexer_inv l = true ->
  match Frost_lexerParseID Obj fuel (mkStore l h) with
  | Done (_, st') => follows l (lexer_obj st')
  | OutOfBounds => False
  | OutOfFuel => (fuel <= remaining l)%nat
  end.
Proof.
  intros Hinv; unfold Frost_lexerParseID, bind.
  destruct (allocate_any (mkStore l h)) as (b & h1 & ->); simpl.
  destruct b; simpl; [|apply follows_refl; assumption].
  apply gather_run; assumption.
Qed.

Lemma parseID_exact (fuel : nat) (l : lexer_t) (h : allocator) :
  lexer_inv l = true ->
  plentiful h = true ->
  (remaining l < fuel)%nat ->
  let word := run (drop (Z.to_nat (index l)) (source l)) in
  let l' := at_index l (index l + Z.of_nat (String.length word)) in
  exists h',
    Frost_lexerParseID Obj fuel (mkStore l h)
    = Done (Some (mkToken word TOKEN_ID), mkStore l' h')
    /\ plentiful h' = true
    /\ lexer_inv l' = true.
Proof.
  intros Hinv Hp Hfuel word l'; unfold Frost_lexerParseID, bind.
  destruct (allocate_plentiful (mkStore l h) Hp) as (h1 & -> & Hp1); simpl.
  destruct (gather_exact fuel EmptyString l h1 Hinv Hp1 Hfuel)
    as (h' & Hrun & Hp' & Hi).
  simpl in Hrun; rewrite c_str_run in Hrun.
  exists h'; repeat split; assumption.
Qed.

Lemma peek_sum (l : lexer_t) (offset : Z) :
  lexer_inv l = true ->
  INT_MIN <= offset <= INT_MAX ->
  let sum := size_wrap (index l + size_wrap offset) in
  (if sum <? source_size l then sum else source_size l) = peek_index l offset.
Proof.
  intros Hinv Hoff.
  apply lexer_inv_spec in Hinv; destruct Hinv as (Hcap & Hle & _).
  apply captured_spec in Hcap; destruct Hcap as (_ & Hmax & Hlo).
  unfold peek_index, size_wrap, INT_MIN, INT_MAX, PTRDIFF_MAX in *; cbv zeta.
  rewrite Zplus_mod_idemp_r.
  change (2 ^ 64) with 18446744073709551616.
  change (2 ^ 63) with 9223372036854775808 in Hmax.
  change (2 ^ 31) with 2147483648 in Hoff.
  destruct (index l + offset <? 0) eqn:Hneg.
  - apply Z.ltb_lt in Hneg.
    replace ((index l + offset) mod 18446744073709551616)
      with (index l + offset + 18446744073709551616).
    + destruct (Z.ltb_spec (index l + offset + 18446744073709551616)
                           (source_size l)); [lia|reflexivity].
    + apply (Z.mod_unique _ _ (-1)); lia.
  - apply Z.ltb_ge in Hneg.
    rewrite Z.mod_small by lia.
    destruct (Z.ltb_spec (index l + offset) (source_size l)); lia.
Qed.

Lemma peek_index_inside (l : lexer_t) (offset : Z) :
  lexer_inv l = true -> 0 <= peek_index l offset <= source_size l.
Proof.
  intros Hinv.
  apply lexer_inv_spec in Hinv; destruct Hinv as (Hcap & Hle & _).
  apply captured_spec in Hcap; destruct Hcap as (_ & _ & Hlo).
  unfold peek_index.
  destruct (Z.ltb_spec (index l + offset) 0); lia.
Qed.

Lemma peek_eval (l : lexer_t) (h : allocator) (offset : Z) :
  lexer_inv l = true ->
  INT_MIN <= offset <= INT_MAX ->
  Frost_lexerPeek Obj offset (mkStore l h)
  = Done (char_at (source l) (Z.to_nat (peek_index l offset)), mkStore l h).
Proof.
  intros Hinv Hoff.
  unfold Frost_lexerPeek, bind, deref; simpl.
  rewrite (peek_sum l offset Hinv Hoff).
  pose proof (peek_index_inside l offset Hinv) as Hin.
  apply lexer_inv_spec in Hinv; destruct Hinv as (Hcap & _ & _).
  apply captured_spec in Hcap; destruct Hcap as (Hsz & _ & _).
  pose proof (strlen_le_length (source l)) as Hlen.
  unfold source_at; simpl.
  rewrite load_inside by lia.
  reflexivity.
Qed.

End LexerFacts.

(** ** The scanner *)

Module ScannerFacts.
Import C CFacts Token Machine TokenImpl Lexer Cursor LexerFacts.

#[local] Arguments Frost_lexerAdvance : simpl never.
#[local] Arguments Frost_initToken : simpl never.
#[local] Arguments Frost_lexerParseID : simpl never.
#[local] Arguments Frost_lexerAdvanceWith : simpl never.
#[local] Arguments allocate : simpl never.

Lemma advanced_index_inv (st : store) :
  lexer_inv (lexer_obj st) = true ->
  index (lexer_obj (advanced st))
  = Z.min (index (lexer_obj st) + 1) (source_size (lexer_obj st)).
Proof.
  intros Hinv; unfold advanced, can_advance.
  destruct (Z.ltb_spec (index (lexer_obj st)) (source_size (lexer_obj st)))
    as [Hlt|Hge]; simpl.
  - rewrite (eqb_NUL_false _ (inv_inside_not_NUL _ Hinv Hlt)); simpl; lia.
  - apply lexer_inv_spec in Hinv; lia.
Qed.

Lemma advanceWith_run (tok : option token_t) (l : lexer_t) (h : allocator) :
  lexer_inv l = true ->
  exists l',
    Frost_lexerAdvanceWith Obj tok (mkStore l h) = Done (tok, mkStore l' h)
    /\ follows l l'.
Proof.
  intros Hinv; unfold Frost_lexerAdvanceWith.
  destruct tok as [t|].
  2:{ exists l; unfold ret; split; [reflexivity|].
      apply follows_refl; assumption. }
  unfold bind; rewrite advance_eval by (apply lexer_inv_spec in Hinv; tauto).
  pose proof (follows_advanced l h Hinv) as Hfol.
  pose proof (advanced_heap (mkStore l h)) as Hh.
  destruct (advanced (mkStore l h)) as [l' h']; simpl in *; subst h'.
  exists l'; unfold ret; split; [reflexivity|assumption].
Qed.

Lemma initToken_kind (lx : option string) (t : token_type_t) (st st' : store)
      (tok : token_t) :
  Frost_initToken lx t st = Done (Some tok, st') -> type tok = t.
Proof.
  unfold Frost_initToken; destruct lx as [text|]; [|discriminate].
  unfold bind.
  destruct (allocate_any st) as (b1 & h1 & ->).
  destruct b1; simpl; [|discriminate].
  destruct (allocate_any (mkStore (lexer_obj st) h1)) as (b2 & h2 & ->).
  destruct b2; simpl; [|discriminate].
  unfold ret; intros H; injection H as <- _; reflexivity.
Qed.

Lemma gather_kind (fuel : nat) :
  forall (value : string) (st st' : store) (tok : token_t),
    gather fuel value st = Done (Some tok, st') -> type tok = TOKEN_ID.
Proof.
  induction fuel as [|fuel IH]; intros value st st' tok; [discriminate|].
  simpl; unfold bind at 1, deref; simpl.
  destruct (isalnum (current_char (lexer_obj st))).
  - unfold bind at 1.
    destruct (allocate_any st) as (b & h1 & ->).
    destruct b; simpl; [|discriminate].
    unfold bind.
    destruct (Frost_lexerAdvance Obj _) as [[r st2]| |]; try discriminate.
    apply IH.
  - apply initToken_kind.
Qed.

Section Classifier.

Variable isaalpha : ascii -> bool.

(** Away from letters the loop of [Frost_nextToken] changes nothing, so it
    never leaves. *)
Lemma scan_stalls (fuel : nat) (st : store) :
  current_char (lexer_obj st) <> NUL ->
  isaalpha (current_char (lexer_obj st)) = false ->
  scan isaalpha fuel st = OutOfFuel.
Proof.
  intros Hc Ha; induction fuel as [|fuel IH]; [reflexivity|].
  simpl; unfold bind, deref; simpl.
  rewrite (eqb_NUL_false _ Hc), Ha; simpl; exact IH.
Qed.

Lemma scan_at_end (fuel : nat) (st : store) :
  current_char (lexer_obj st) = NUL ->
  scan isaalpha (S fuel) st = Done (None, st).
Proof.
  intros Hc; simpl; unfold bind, deref; simpl.
  rewrite Hc; reflexivity.
Qed.

(** Every token that leaves the scanner has the kind [TOKEN_ID]. *)
Lemma scan_kind (fuel : nat) :
  forall (st st' : store) (tok : token_t),
    scan isaalpha fuel st = Done (Some tok, st') -> type tok = TOKEN_ID.
Proof.
  induction fuel as [|fuel IH]; intros st st' tok; [discriminate|].
  simpl; unfold bind at 1, deref; simpl.
  destruct (Ascii.eqb (current_char (lexer_obj st)) NUL); simpl;
    [discriminate|].
  destruct (isaalpha (current_char (lexer_obj st))); [|apply IH].
  unfold bind, Frost_lexerParseID, bind.
  destruct (allocate_any st) as (b & h1 & ->).
  destruct b; simpl; [|discriminate].
  destruct (gather fuel _ _) as [[[id|] st2]| |] eqn:Hg; try discriminate.
  apply gather_kind in Hg.
  unfold Frost_lexerAdvanceWith, bind.
  destruct (Frost_lexerAdvance Obj st2) as [[r st3]| |]; try discriminate.
  unfold ret; intros H; injection H as <- _; exact Hg.
Qed.

(** A call from a state under the invariant: no read outside the source, the
    invariant kept, the cursor not moved back; and the call only fails to
    return on a character that is neither the terminator nor accepted by
    [isaalpha], or for want of fuel. *)
Lemma scan_run (fuel : nat) (l : lexer_t) (h : allocator) :
  lexer_inv l = true ->
  match scan isaalpha fuel (mkStore l h) with
  | Done (_, st') => follows l (lexer_obj st')
  | OutOfBounds => False
  | OutOfFuel =>
      (current_char l <> NUL /\ isaalpha (current_char l) = false)
      \/ (fuel <= remaining l + 1)%nat
  end.
Proof.
  intros Hinv; destruct fuel as [|fuel]; [simpl; right; lia|].
  destruct (Ascii.eqb_spec (current_char l) NUL) as [Hc|Hc].
  - rewrite scan_at_end by exact Hc; apply follows_refl; assumption.
  - destruct (isaalpha (current_char l)) eqn:Ha.
    + simpl; unfold bind at 1, deref; simpl.
      rewrite (eqb_NUL_false _ Hc), Ha; simpl; unfold bind.
      pose proof (parseID_run fuel l h Hinv) as Hid.
      destruct (Frost_lexerParseID Obj fuel _) as [[id [l1 h1]]| |];
        simpl in Hid; [|contradiction|right; lia].
      destruct (advanceWith_run id l1 h1 (proj1 Hid)) as (l2 & -> & Hfol).
      apply (follows_trans _ _ _ Hid Hfol).
    + rewrite scan_stalls by assumption; left; split; [assumption|reflexivity].
Qed.

(** On a character accepted by [isaalpha], with enough memory: the token is
    the run of letters and digits under the cursor, and the cursor is moved
    behind the run and then once more. *)
Lemma scan_word (fuel : nat) (l : lexer_t) (h : allocator) :
  lexer_inv l = true ->
  plentiful h = true ->
  current_char l <> NUL ->
  isaalpha (current_char l) = true ->
  (remaining l < fuel)%nat ->
  let word := run (drop (Z.to_nat (index l)) (source l)) in
  let l' := at_index l (index l + Z.of_nat (String.length word)) in
  exists h',
    scan isaalpha (S fuel) (mkStore l h)
    = Done (Some (mkToken word TOKEN_ID), advanced (mkStore l' h'))
    /\ plentiful h' = true
    /\ lexer_inv l' = true.
Proof.
  intros Hinv Hp Hc Ha Hfuel word l'.
  simpl; unfold bind at 1, deref; simpl.
  rewrite (eqb_NUL_false _ Hc), Ha; simpl; unfold bind.
  destruct (parseID_exact fuel l h Hinv Hp Hfuel) as (h' & -> & Hp' & Hi).
  fold word; fold l'; fold word in Hi; fold l' in Hi.
  unfold Frost_lexerAdvanceWith, bind.
  rewrite advance_eval by (apply lexer_inv_spec in Hi; tauto).
  exists h'; unfold ret; repeat split; assumption.
Qed.

(** On a character accepted by [isaalpha], with enough memory and fuel, the
    call returns a token and the cursor has moved forward. *)
Lemma scan_word_progress (fuel : nat) (l : lexer_t) (h : allocator) :
  lexer_inv l = true ->
  plentiful h = true ->
  current_char l <> NUL ->
  isaalpha (current_char l) = true ->
  (remaining l < fuel)%nat ->
  exists tok st',
    scan isaalpha (S fuel) (mkStore l h) = Done (Some tok, st')
    /\ index l < index (lexer_obj st').
Proof.
  intros Hinv Hp Hc Ha Hfuel.
  destruct (scan_word fuel l h Hinv Hp Hc Ha Hfuel) as (h' & Hrun & _ & Hi).
  do 2 eexists; split; [exact Hrun|].
  rewrite (advanced_index_inv (mkStore _ h') Hi); simpl.
  pose proof (inv_not_NUL_inside l Hinv Hc).
  lia.
Qed.

End Classifier.

(** *** Runs on small sources *)

Example token_codes :
  token_code TOKEN_ID = 0 /\ token_code TOKEN_IF = 1
  /\ token_code TOKEN_IDENTIFIER = 12 /\ token_code TOKEN_EOF = 57.
Proof. repeat split. Qed.

Example skip_blanks_before_if :
  Frost_lexerSkipWhiteSpace Obj 5 (start "  if" [])
  = Done (FUNCTION_SUCESS, mkStore (mkLexer "  if" "i" 4 2) []).
Proof. reflexivity. Qed.

Example parseID_stops_at_underscore :
  Frost_lexerParseID Obj 5 (start "ab_c" [])
  = Done (Some (mkToken "ab" TOKEN_ID), mkStore (mkLexer "ab_c" "_" 4 2) []).
Proof. reflexivity. Qed.

(** [calloc] refusing the first block: no token, cursor untouched. *)
Example parseID_without_memory :
  Frost_lexerParseID Obj 5 (start "ab" [false]) = Done (None, start "ab" []).
Proof. reflexivity. Qed.

(** [realloc] refusing the second character: no token, cursor already moved;
    [Frost_lexerAdvanceWith] then returns the null token without advancing. *)
Example nextToken_realloc_fails :
  Frost_nextToken isalpha Obj 5 (start "ab" [true; true; false])
  = Done (None, mkStore (mkLexer "ab" "b" 2 1) []).
Proof. reflexivity. Qed.

(** A source with a terminator inside its buffer ends there. *)
Example embedded_terminator :
  source_size (lexer_obj (start (String "a" (String NUL "b")) [])) = 1
  /\ Frost_lexerPeek Obj 5 (start (String "a" (String NUL "b")) [])
     = Done (NUL, start (String "a" (String NUL "b")) []).
Proof. split; reflexivity. Qed.

Example peek_ahead_and_behind :
  Frost_lexerPeek Obj 1 (mkStore (mkLexer "abc" "b" 3 1) [])
  = Done ("c"%char, mkStore (mkLexer "abc" "b" 3 1) [])
  /\ Frost_lexerPeek Obj (-1) (mkStore (mkLexer "abc" "b" 3 1) [])
     = Done ("a"%char, mkStore (mkLexer "abc" "b" 3 1) [])
  /\ Frost_lexerPeek Obj 9 (mkStore (mkLexer "abc" "b" 3 1) [])
     = Done (NUL, mkStore (mkLexer "abc" "b" 3 1) []).
Proof. repeat split. Qed.

End ScannerFacts.

(** * The statements of the specification *)

Module FrostSpec.
Import C CFacts Token Machine TokenImpl Lexer Cursor LexerFacts ScannerFacts.

#[local] Arguments Frost_lexerAdvance : simpl never.

(** ** The cursor *)



(** What [Frost_lexerPeek] does for a lexer under the invariant and any
    [int] offset: the read stays between 0 and the length and the store is
    untouched; when position + offset is not negative the index read is the
    clamp of that sum; when it is negative the sum wraps in [size_t] and the
    terminator is returned.  With a null lexer it returns the space. *)
Theorem peek_reads_min_of_wrapped_sum (l : lexer_t) (h : allocator)
        (offset : Z) :
  lexer_inv l = true ->
  INT_MIN <= offset <= INT_MAX ->
  Frost_lexerPeek Obj offset (mkStore l h)
  = Done (char_at (source l) (Z.to_nat (peek_index l offset)), mkStore l h)
  /\ 0 <= peek_index l offset <= source_size l
  /\ (index l + offset < 0 ->
      Frost_lexerPeek Obj offset (mkStore l h) = Done (NUL, mkStore l h))
  /\ (0 <= index l + offset ->
      peek_index l offset = clamp (index l + offset) 0 (source_size l))
  /\ Frost_lexerPeek Null offset (mkStore l h) = Done (" "%char, mkStore l h).
Proof.
  intros Hinv Hoff.
  pose proof (peek_eval l h offset Hinv Hoff) as Heval.
  pose proof (peek_index_inside l offset Hinv) as Hin.
  repeat split; try assumption; try lia.
  - intros Hneg; rewrite Heval.
    unfold peek_index; apply Z.ltb_lt in Hneg; rewrite Hneg.
    apply lexer_inv_spec in Hinv; destruct Hinv as (Hcap & _ & _).
    apply captured_spec in Hcap; destruct Hcap as (-> & _ & _).
    now rewrite Nat2Z.id, char_at_strlen.
  - intros Hpos; unfold peek_index, clamp.
    apply Z.ltb_ge in Hpos; rewrite Hpos.
    apply lexer_inv_spec in Hinv; destruct Hinv as (Hcap & Hle & _).
    apply captured_spec in Hcap; lia.
Qed.

Lemma peek_reads_min_of_wrapped_sum_witness :
  (lexer_inv (mkLexer "abc" "b" 3 1) = true /\ INT_MIN <= 1 <= INT_MAX)
  /\ Frost_lexerPeek Obj 1 (mkStore (mkLexer "abc" "b" 3 1) [])
     = Done ("c"%char, mkStore (mkLexer "abc" "b" 3 1) []).
Proof.
  split; [split; [reflexivity|unfold INT_MIN, INT_MAX; lia]|].
  apply (peek_reads_min_of_wrapped_sum (mkLexer "abc" "b" 3 1) [] 1);
    [reflexivity|unfold INT_MIN, INT_MAX; lia].
Defined.

(** C5, at the input that breaks it.  One character before the start of
    "ab" (index 0, offset -1) the sum wraps in [size_t], [MIN] selects the
    length, and [Frost_lexerPeek] returns the terminator: neither the
    character at the clamped index 0, the letter a, which the specification
    asks for, nor the space that the function's own description promises
    for an offset outside the source. *)
Theorem peek_before_start_is_terminator :
  char_at "ab" (Z.to_nat (clamp (0 + -1) 0 2)) = "a"%char
  /\ Frost_lexerPeek Obj (-1) (start "ab" []) = Done (NUL, start "ab" [])
  /\ Frost_lexerPeek Obj (-1) (start "ab" [])
     <> Done (char_at "ab" (Z.to_nat (clamp (0 + -1) 0 2)), start "ab" [])
  /\ Frost_lexerPeek Obj (-1) (start "ab" [])
     <> Done (" "%char, start "ab" []).
Proof.
  repeat split; try reflexivity; vm_compute; discriminate.
Qed.

(** C10, at the input that breaks it.  With a null lexer no function touches
    the store; [Frost_lexerAdvance] returns [-ENOMEM], [Frost_nextToken] and
    [Frost_lexerParseID] return no token, [Frost_lexerPeek] returns the
    space; [Frost_lexerSkipWhiteSpace] returns [FUNCTION_SUCESS], which is
    not [-ENOMEM]. *)
Theorem null_lexer_results (isaalpha : ascii -> bool) (fuel : nat)
        (offset : Z) (st : store) :
  Frost_lexerSkipWhiteSpace Null fuel st = Done (FUNCTION_SUCESS, st)
  /\ FUNCTION_SUCESS <> - ENOMEM
  /\ Frost_lexerAdvance Null st = Done (- ENOMEM, st)
  /\ Frost_nextToken isaalpha Null fuel st = Done (None, st)
  /\ Frost_lexerParseID Null fuel st = Done (None, st)
  /\ Frost_lexerPeek Null offset st = Done (" "%char, st).
Proof.
  repeat split; discriminate.
Qed.

(** C8. From a state under the invariant (length captured, index between 0
    and the length, current character the one under the index) every
    operation keeps the invariant over the same length and never moves the
    index back: [Frost_lexerAdvance], [Frost_lexerSkipWhiteSpace] and
    [Frost_lexerParseID] return such a state; so does [Frost_nextToken]
    whenever it returns, which it does on the terminator and on a character
    accepted by [isaalpha]; and [Frost_lexerPeek] changes nothing. *)
Theorem position_bounded_and_monotone (isaalpha : ascii -> bool)
        (l : lexer_t) (h : allocator) :
  lexer_inv l = true ->
  let kept (st' : store) :=
    lexer_inv (lexer_obj st') = true
    /\ source_size (lexer_obj st') = source_size l
    /\ 0 <= index l
    /\ index l <= index (lexer_obj st')
    /\ index (lexer_obj st') <= source_size l in
  (exists st',
      Frost_lexerAdvance Obj (mkStore l h) = Done (FUNCTION_SUCESS, st')
      /\ kept st')
  /\ (forall fuel, (remaining l < fuel)%nat ->
       exists st',
         Frost_lexerSkipWhiteSpace Obj fuel (mkStore l h)
         = Done (FUNCTION_SUCESS, st')
         /\ kept st')
  /\ (forall fuel, (remaining l < fuel)%nat ->
       exists tok st',
         Frost_lexerParseID Obj fuel (mkStore l h) = Done (tok, st')
         /\ kept st')
  /\ (forall fuel,
       match Frost_nextToken isaalpha Obj fuel (mkStore l h) with
       | Done (_, st') => kept st'
       | OutOfBounds => False
       | OutOfFuel => True
       end)
  /\ (forall fuel,
       current_char l = NUL \/ isaalpha (current_char l) = true ->
       (remaining l + 1 < fuel)%nat ->
       exists tok st',
         Frost_nextToken isaalpha Obj fuel (mkStore l h) = Done (tok, st')
         /\ kept st')
  /\ (forall offset, INT_MIN <= offset <= INT_MAX ->
       exists c, Frost_lexerPeek Obj offset (mkStore l h)
                 = Done (c, mkStore l h)).
Proof.
  intros Hinv kept.
  assert (Hkept : forall st', follows l (lexer_obj st') -> kept st').
  { intros st' (Hinv' & Hle & _ & Hsz); unfold kept.
    apply lexer_inv_spec in Hinv; destruct Hinv as (Hcap & _ & _).
    apply captured_spec in Hcap; destruct Hcap as (_ & _ & Hlo).
    pose proof Hinv' as Hi.
    apply lexer_inv_spec in Hi; destruct Hi as (_ & Hle' & _).
    repeat split; try assumption; lia. }
  split; [|split; [|split; [|split; [|split]]]].
  - exists (advanced (mkStore l h)); split.
    + apply advance_eval; apply lexer_inv_spec in Hinv; tauto.
    + apply Hkept, follows_advanced; assumption.
  - intros fuel Hfuel; unfold Frost_lexerSkipWhiteSpace, bind.
    destruct (skip_blanks_returns fuel l h Hinv Hfuel) as (l' & -> & Hfol & _).
    exists (mkStore l' h); split; [reflexivity|apply Hkept; assumption].
  - intros fuel Hfuel.
    pose proof (parseID_run fuel l h Hinv) as Hid.
    destruct (Frost_lexerParseID Obj fuel _) as [[tok st']| |];
      [|contradiction|lia].
    exists tok, st'; split; [reflexivity|apply Hkept; assumption].
  - intros fuel; unfold Frost_nextToken.
    pose proof (scan_run isaalpha fuel l h Hinv) as Hs.
    destruct (scan isaalpha fuel _) as [[tok st']| |];
      [apply Hkept; assumption|contradiction|exact I].
  - intros fuel Hstart Hfuel; unfold Frost_nextToken.
    pose proof (scan_run isaalpha fuel l h Hinv) as Hs.
    destruct (scan isaalpha fuel _) as [[tok st']| |]; [|contradiction|].
    + exists tok, st'; split; [reflexivity|apply Hkept; assumption].
    + exfalso; destruct Hs as [[Hc Ha]|Hlow]; [|lia].
      destruct Hstart as [Hnul|Hyes]; [contradiction|congruence].
  - intros offset Hoff; eexists; apply peek_eval; assumption.
Qed.

Lemma position_bounded_and_monotone_witness :
  lexer_inv (lexer_obj (start "ab cd" [])) = true
  /\ exists tok st',
       Frost_lexerParseID Obj 6 (start "ab cd" []) = Done (tok, st')
       /\ lexer_inv (lexer_obj st') = true
       /\ source_size (lexer_obj st') = 5
       /\ 0 <= 0
       /\ 0 <= index (lexer_obj st')
       /\ index (lexer_obj st') <= 5.
Proof.
  split; [reflexivity|].
  apply (position_bounded_and_monotone isalpha
           (lexer_obj (start "ab cd" [])) []); [reflexivity|].
  vm_compute; lia.
Defined.

(** ** The token factory and the scanner *)

(** C9. [Frost_initToken] returns no token for a null lexeme whatever the
    kind, without asking for memory; the end-of-input path of
    [Frost_nextToken] passes a null lexeme, so on the terminator the call
    returns no token and leaves the store as it was. *)
Theorem initToken_null_lexeme (isaalpha : ascii -> bool) (t : token_type_t)
        (fuel : nat) (st : store) :
  current_char (lexer_obj st) = NUL ->
  Frost_initToken None t st = Done (None, st)
  /\ Frost_nextToken isaalpha Obj (S fuel) st
     = Frost_initToken None TOKEN_EOF st
  /\ Frost_nextToken isaalpha Obj (S fuel) st = Done (None, st).
Proof.
  intros Hc; repeat split; try reflexivity;
    unfold Frost_nextToken; rewrite scan_at_end by exact Hc; reflexivity.
Qed.

Lemma initToken_null_lexeme_witness :
  current_char (lexer_obj (start "" [])) = NUL
  /\ Frost_nextToken isalpha Obj 1 (start "" []) = Done (None, start "" []).
Proof.
  split; [reflexivity|].
  apply (initToken_null_lexeme isalpha TOKEN_EOF 0 (start "" [])).
  reflexivity.
Defined.

(** C2, at the input that breaks it.  On the empty source the cursor is on
    the terminator from the start; every call of [Frost_nextToken] leaves
    the store unchanged and returns the null pointer: no token of the
    end-of-input kind is ever produced. *)
Theorem nextToken_at_end_yields_no_token (isaalpha : ascii -> bool)
        (fuel : nat) (h : allocator) :
  Frost_nextToken isaalpha Obj (S fuel) (start "" h) = Done (None, start "" h)
  /\ forall st' tok,
       Frost_nextToken isaalpha Obj (S fuel) (start "" h)
       <> Done (Some tok, st').
Proof.
  assert (Hrun : Frost_nextToken isaalpha Obj (S fuel) (start "" h)
                 = Done (None, start "" h)).
  { unfold Frost_nextToken; apply scan_at_end; reflexivity. }
  split; [exact Hrun|].
  intros st' tok; rewrite Hrun; discriminate.
Qed.

(** C1, at the inputs that break it.  On a character that is neither the
    terminator nor accepted by [isaalpha] the loop of [Frost_nextToken]
    changes nothing and tests the same character again: whatever the fuel,
    the call is still running when the fuel is spent. *)
Theorem nextToken_stalls_off_identifier (isaalpha : ascii -> bool)
        (fuel : nat) (st : store) :
  current_char (lexer_obj st) <> NUL ->
  isaalpha (current_char (lexer_obj st)) = false ->
  Frost_nextToken isaalpha Obj fuel st = OutOfFuel.
Proof.
  intros Hc Ha; unfold Frost_nextToken; apply scan_stalls; assumption.
Qed.

Lemma nextToken_stalls_off_identifier_witness :
  (current_char (lexer_obj (start ":" [])) <> NUL
   /\ isalpha (current_char (lexer_obj (start ":" []))) = false)
  /\ Frost_nextToken isalpha Obj 1000 (start ":" []) = OutOfFuel.
Proof.
  split; [split; [discriminate|reflexivity]|].
  apply (nextToken_stalls_off_identifier isalpha 1000 (start ":" []));
    [discriminate|reflexivity].
Defined.

(** C6, at the input that breaks it.  [Frost_nextToken] does not call
    [Frost_lexerSkipWhiteSpace]: on "  if  " the first call stays on the
    leading space for ever, while on "if" it returns the identifier. *)
Theorem nextToken_stalls_on_leading_blank (fuel : nat) (h : allocator) :
  Frost_nextToken isalpha Obj fuel (start "  if  " h) = OutOfFuel
  /\ Frost_nextToken isalpha Obj 4 (start "if" [])
     = Done (Some (mkToken "if" TOKEN_ID), mkStore (mkLexer "if" NUL 2 2) []).
Proof.
  split; [|reflexivity].
  unfold Frost_nextToken; apply scan_stalls; [discriminate|reflexivity].
Qed.

(** C4, at the input that breaks it.  On "a+b" the calls return the
    identifier a, then the identifier b, then nothing, with the cursor at
    the end: the extra [Frost_lexerAdvance] of [Frost_lexerAdvanceWith]
    stepped over the plus sign, which is in no lexeme and is no blank, and
    the lexemes add up to 2 of the 3 characters. *)
Theorem tokens_of_a_plus_b_drop_a_character :
  let st1 := mkStore (mkLexer "a+b" "b" 3 2) [] in
  let st2 := mkStore (mkLexer "a+b" NUL 3 3) [] in
  Frost_nextToken isalpha Obj 5 (start "a+b" [])
  = Done (Some (mkToken "a" TOKEN_ID), st1)
  /\ Frost_nextToken isalpha Obj 5 st1 = Done (Some (mkToken "b" TOKEN_ID), st2)
  /\ Frost_nextToken isalpha Obj 5 st2 = Done (None, st2)
  /\ Z.of_nat (String.length "a" + String.length "b")
     < source_size (lexer_obj (start "a+b" [])).
Proof.
  repeat split.
Qed.

(** C3, as the code has it.  On a character accepted by [isaalpha], with
    memory granted, [Frost_nextToken] gathers the letters and digits under
    the cursor (no underscore) and returns them with the kind [TOKEN_ID]; no
    keyword table is consulted.  In particular "if", "while", "return" and
    "ifx" all lex as [TOKEN_ID]. *)
Theorem nextToken_identifier_is_TOKEN_ID (isaalpha : ascii -> bool)
        (l : lexer_t) (h : allocator) (fuel : nat) :
  lexer_inv l = true ->
  plentiful h = true ->
  current_char l <> NUL ->
  isaalpha (current_char l) = true ->
  (remaining l + 1 < fuel)%nat ->
  let word := run (drop (Z.to_nat (index l)) (source l)) in
  (exists st',
      Frost_nextToken isaalpha Obj fuel (mkStore l h)
      = Done (Some (mkToken word TOKEN_ID), st'))
  /\ (forall text, In text ["if"; "while"; "return"; "ifx"] ->
       exists st',
         Frost_nextToken isalpha Obj 8 (start text [])
         = Done (Some (mkToken text TOKEN_ID), st')).
Proof.
  intros Hinv Hp Hc Ha Hfuel word; split.
  - destruct fuel as [|fuel]; [lia|].
    destruct (scan_word isaalpha fuel l h Hinv Hp Hc Ha ltac:(lia))
      as (h' & Hrun & _ & Hi).
    fold word in Hrun, Hi.
    eexists; exact Hrun.
  - intros text Hin; simpl in Hin.
    destruct Hin as [<-|[<-|[<-|[<-|[]]]]]; eexists; vm_compute; reflexivity.
Qed.

Lemma nextToken_identifier_is_TOKEN_ID_witness :
  (lexer_inv (lexer_obj (start "while (x)" [])) = true
   /\ plentiful [] = true
   /\ current_char (lexer_obj (start "while (x)" [])) <> NUL
   /\ isalpha (current_char (lexer_obj (start "while (x)" []))) = true
   /\ (remaining (lexer_obj (start "while (x)" [])) + 1 < 11)%nat)
  /\ exists st',
       Frost_nextToken isalpha Obj 11 (start "while (x)" [])
       = Done (Some (mkToken "while" TOKEN_ID), st').
Proof.
  split;
    [repeat split; try reflexivity; try discriminate; vm_compute; lia|].
  pose proof (proj1 (nextToken_identifier_is_TOKEN_ID isalpha
                       (lexer_obj (start "while (x)" [])) [] 11
                       eq_refl eq_refl ltac:(discriminate) eq_refl
                       ltac:(vm_compute; lia))) as Hword.
  destruct Hword as (st' & Hrun); exists st'; exact Hrun.
Defined.

(** C3 as stated fails: whatever the fuel and the allocator, the token that
    "if" lexes to is never of the keyword kind [TOKEN_IF]; with memory
    granted it is the [TOKEN_ID] token of lexeme "if".  And an underscore
    ends the lexeme: "a_b" lexes to the lexeme "a". *)
Lemma if_never_lexes_as_TOKEN_IF :
  Frost_nextToken isalpha Obj 4 (start "if" [])
  = Done (Some (mkToken "if" TOKEN_ID), mkStore (mkLexer "if" NUL 2 2) [])
  /\ ~ (exists fuel h tok st',
          Frost_nextToken isalpha Obj fuel (start "if" h)
          = Done (Some tok, st')
          /\ type tok = TOKEN_IF)
  /\ (exists st',
        Frost_nextToken isalpha Obj 5 (start "a_b" [])
        = Done (Some (mkToken "a" TOKEN_ID), st')).
Proof.
  split; [reflexivity|split].
  - intros (fuel & h & tok & st' & Hrun & Hkind).
    unfold Frost_nextToken in Hrun; apply scan_kind in Hrun.
    rewrite Hrun in Hkind; discriminate Hkind.
  - eexists; vm_compute; reflexivity.
Qed.

End FrostSpec.

(** * Beyond the specification *)

(** ** utils.h: the bits of an [unsigned int] *)

Module UtilsFacts.
Import Utils Text.

Lemma is_uint_spec (z : Z) : is_uint z = true <-> 0 <= z < 2 ^ 32.
Proof.
  unfold is_uint, UINT_MAX; rewrite andb_true_iff, !Z.leb_le; lia.
Qed.

Lemma uint_wrap_small (z : Z) : is_uint z = true -> uint_wrap z = z.
Proof. intros H; apply is_uint_spec in H; now apply Z.mod_small. Qed.

Lemma uint_wrap_is_uint (z : Z) : is_uint (uint_wrap z) = true.
Proof.
  apply is_uint_spec; unfold uint_wrap; apply Z.mod_pos_bound; lia.
Qed.

Lemma uint_high_bits (z i : Z) :
  is_uint z = true -> 32 <= i -> Z.testbit z i = false.
Proof.
  intros Hz Hi; rewrite <- (uint_wrap_small z Hz).
  apply Z.mod_pow2_bits_high; lia.
Qed.

(** A number whose bits from 32 up are all clear is an [unsigned int]. *)
Lemma is_uint_of_bits (z : Z) :
  (forall i, 32 <= i -> Z.testbit z i = false) -> is_uint z = true.
Proof.
  intros Hhigh.
  replace z with (uint_wrap z); [apply uint_wrap_is_uint|].
  apply Z.bits_inj'; intros i Hi; unfold uint_wrap.
  destruct (Z.lt_ge_cases i 32) as [Hlt|Hge].
  - apply Z.mod_pow2_bits_low; exact Hlt.
  - rewrite Z.mod_pow2_bits_high by lia; symmetry; apply Hhigh; exact Hge.
Qed.

(** Under a 32-bit operand the complement may be taken in [Z]. *)
Lemma land_uint_not (x m : Z) :
  is_uint x = true -> Z.land x (uint_not m) = Z.land x (Z.lnot m).
Proof.
  intros Hx; apply Z.bits_inj'; intros i Hi.
  rewrite !Z.land_spec; unfold uint_not, uint_wrap.
  destruct (Z.lt_ge_cases i 32) as [Hlt|Hge].
  - now rewrite Z.mod_pow2_bits_low.
  - now rewrite (uint_high_bits x i Hx Hge).
Qed.

Lemma shl_one (pos : Z) : 0 <= pos < 32 -> shl 1 pos = Some (2 ^ pos).
Proof.
  intros Hp; unfold shl.
  destruct (Z.leb_spec 0 pos); [|lia].
  destruct (Z.ltb_spec pos 32); [|lia]; simpl.
  rewrite Z.shiftl_mul_pow2, Z.mul_1_l by lia.
  f_equal; apply Z.mod_small; split; [lia|].
  apply Z.pow_lt_mono_r; lia.
Qed.

Lemma shr_inside (v pos : Z) :
  0 <= pos < 32 -> shr v pos = Some (Z.shiftr v pos).
Proof.
  intros Hp; unfold shr.
  destruct (Z.leb_spec 0 pos); [|lia].
  destruct (Z.ltb_spec pos 32); [|lia]; reflexivity.
Qed.

(** [CHECK_BIT] reads the bit of [var] at [pos]. *)
Lemma check_bit_testbit (var pos : Z) :
  0 <= pos < 32 -> CHECK_BIT var pos = Some (Z.b2z (Z.testbit var pos)).
Proof.
  intros Hp; unfold CHECK_BIT; rewrite (shr_inside var pos Hp); simpl.
  f_equal.
  change 1 with (Z.ones 1); rewrite Z.land_ones by lia.
  change (2 ^ 1) with 2; rewrite <- Z.bit0_mod.
  now rewrite Z.shiftr_spec by lia.
Qed.

Lemma pow2_is_uint (pos : Z) : 0 <= pos < 32 -> is_uint (2 ^ pos) = true.
Proof.
  intros Hp; apply is_uint_spec; split; [lia|].
  apply Z.pow_lt_mono_r; lia.
Qed.

Lemma set_bit_bits (var pos i : Z) :
  0 <= pos ->
  Z.testbit (Z.lor var (2 ^ pos)) i = Z.testbit var i || (pos =? i).
Proof. intros Hp; now rewrite Z.lor_spec, Z.pow2_bits_eqb. Qed.

Lemma clear_bit_bits (var pos i : Z) :
  is_uint var = true -> 0 <= pos -> 0 <= i ->
  Z.testbit (Z.land var (uint_not (2 ^ pos))) i
  = Z.testbit var i && negb (pos =? i).
Proof.
  intros Hv Hp Hi.
  now rewrite land_uint_not, Z.land_spec, Z.lnot_spec, Z.pow2_bits_eqb.
Qed.

Lemma toggle_bit_bits (var pos i : Z) :
  0 <= pos ->
  Z.testbit (Z.lxor var (2 ^ pos)) i = xorb (Z.testbit var i) (pos =? i).
Proof. intros Hp; now rewrite Z.lxor_spec, Z.pow2_bits_eqb. Qed.

(** X17. For an [unsigned int] [var] and a position [pos] below 32, reading
    the bit just written gives what was written: [CHECK_BIT] is 1 after
    [SET_BIT], 0 after [CLEAR_BIT], and the opposite of the old bit after
    [TOGGLE_BIT]. *)
Theorem check_after_write (var pos : Z) :
  is_uint var = true ->
  0 <= pos < 32 ->
  (exists v, SET_BIT var pos = Some v /\ CHECK_BIT v pos = Some 1)
  /\ (exists v, CLEAR_BIT var pos = Some v /\ CHECK_BIT v pos = Some 0)
  /\ (exists v old,
        TOGGLE_BIT var pos = Some v
        /\ CHECK_BIT var pos = Some old
        /\ CHECK_BIT v pos = Some (1 - old)).
Proof.
  intros Hv Hp.
  unfold SET_BIT, CLEAR_BIT, TOGGLE_BIT; rewrite (shl_one pos Hp); simpl.
  repeat split.
  - eexists; split; [reflexivity|].
    rewrite check_bit_testbit, set_bit_bits, Z.eqb_refl, orb_true_r by lia.
    reflexivity.
  - eexists; split; [reflexivity|].
    rewrite check_bit_testbit, clear_bit_bits, Z.eqb_refl, andb_false_r
      by (assumption || lia).
    reflexivity.
  - do 2 eexists; split; [reflexivity|].
    rewrite !check_bit_testbit, toggle_bit_bits, Z.eqb_refl by lia.
    split; [reflexivity|].
    destruct (Z.testbit var pos); reflexivity.
Qed.

Lemma check_after_write_witness :
  (is_uint 5 = true /\ 0 <= 1 < 32)
  /\ exists v, SET_BIT 5 1 = Some v /\ CHECK_BIT v 1 = Some 1.
Proof.
  split; [split; [reflexivity|lia]|].
  apply (check_after_write 5 1); [reflexivity|lia].
Defined.

(** X18. Writing the bit at [pos] leaves every other bit as it was: after
    [SET_BIT], [CLEAR_BIT] or [TOGGLE_BIT] at [pos], [CHECK_BIT] at any
    other position [other] below 32 gives what it gave before; and the new
    value is again an [unsigned int]. *)
Theorem write_keeps_other_bits (var pos other : Z) :
  is_uint var = true ->
  0 <= pos < 32 ->
  0 <= other < 32 ->
  other <> pos ->
  forall write, In write [SET_BIT; CLEAR_BIT; TOGGLE_BIT] ->
    exists v,
      write var pos = Some v
      /\ is_uint v = true
      /\ CHECK_BIT v other = CHECK_BIT var other.
Proof.
  intros Hv Hp Ho Hne write Hin.
  assert (Hneq : (pos =? other) = false) by (apply Z.eqb_neq; lia).
  simpl in Hin; destruct Hin as [<-|[<-|[<-|[]]]];
    unfold SET_BIT, CLEAR_BIT, TOGGLE_BIT; rewrite (shl_one pos Hp); simpl;
    eexists; (split; [reflexivity|]); split.
  - apply is_uint_of_bits; intros i Hi.
    rewrite set_bit_bits, (uint_high_bits var i Hv Hi) by lia.
    apply Z.eqb_neq; lia.
  - rewrite !check_bit_testbit, set_bit_bits, Hneq, orb_false_r by lia.
    reflexivity.
  - apply is_uint_of_bits; intros i Hi.
    rewrite clear_bit_bits, (uint_high_bits var i Hv Hi)
      by (assumption || lia).
    reflexivity.
  - rewrite !check_bit_testbit, clear_bit_bits, Hneq, andb_true_r
      by (assumption || lia).
    reflexivity.
  - apply is_uint_of_bits; intros i Hi.
    rewrite toggle_bit_bits, (uint_high_bits var i Hv Hi) by lia.
    simpl; apply Z.eqb_neq; lia.
  - rewrite !check_bit_testbit, toggle_bit_bits, Hneq, xorb_false_r by lia.
    reflexivity.
Qed.

Lemma write_keeps_other_bits_witness :
  (is_uint 5 = true /\ 0 <= 1 < 32 /\ 0 <= 2 < 32 /\ 2 <> 1)
  /\ exists v,
       TOGGLE_BIT 5 1 = Some v
       /\ is_uint v = true
       /\ CHECK_BIT v 2 = CHECK_BIT 5 2.
Proof.
  split; [repeat split; try reflexivity; lia|].
  apply (write_keeps_other_bits 5 1 2); try reflexivity; try lia.
  simpl; tauto.
Defined.

(** X19. Writing twice.  For an [unsigned int] [var] and [pos] below 32:
    toggling the same bit twice gives [var] back, setting it twice is
    setting it once, and clearing it after setting it is clearing it. *)
Theorem write_twice (var pos : Z) :
  is_uint var = true ->
  0 <= pos < 32 ->
  exists s t c,
    SET_BIT var pos = Some s /\ TOGGLE_BIT var pos = Some t
    /\ CLEAR_BIT var pos = Some c
    /\ TOGGLE_BIT t pos = Some var
    /\ SET_BIT s pos = Some s
    /\ CLEAR_BIT s pos = Some c.
Proof.
  intros Hv Hp; unfold SET_BIT, CLEAR_BIT, TOGGLE_BIT.
  rewrite (shl_one pos Hp); simpl.
  do 3 eexists; repeat split; f_equal.
  - now rewrite Z.lxor_assoc, Z.lxor_nilpotent, Z.lxor_0_r.
  - now rewrite <- Z.lor_assoc, Z.lor_diag.
  - assert (Hs : is_uint (Z.lor var (2 ^ pos)) = true).
    { apply is_uint_of_bits; intros i Hi.
      rewrite set_bit_bits, (uint_high_bits var i Hv Hi) by lia.
      apply Z.eqb_neq; lia. }
    apply Z.bits_inj'; intros i Hi.
    rewrite !clear_bit_bits, set_bit_bits by (assumption || lia).
    destruct (pos =? i); simpl;
      [now rewrite !andb_false_r|now rewrite orb_false_r].
Qed.

Lemma write_twice_witness :
  is_uint 5 = true /\ 0 <= 1 < 32
  /\ exists s t c,
       SET_BIT 5 1 = Some s /\ TOGGLE_BIT 5 1 = Some t
       /\ CLEAR_BIT 5 1 = Some c
       /\ TOGGLE_BIT t 1 = Some 5
       /\ SET_BIT s 1 = Some s
       /\ CLEAR_BIT s 1 = Some c.
Proof.
  split; [reflexivity|split; [lia|]].
  apply (write_twice 5 1 eq_refl); lia.
Defined.

(** *** Alignment *)

Lemma power_of_two_range (a : Z) :
  power_of_two a -> 0 < a /\ is_uint a = true /\ (a | 2 ^ 32).
Proof.
  intros (k & Hk & ->); repeat split.
  - lia.
  - apply pow2_is_uint; exact Hk.
  - exists (2 ^ (32 - k)); rewrite <- Z.pow_add_r by lia; f_equal; lia.
Qed.

Lemma low_mask (a : Z) : power_of_two a -> uint_wrap (a - 1) = a - 1.
Proof.
  intros Ha; destruct (power_of_two_range a Ha) as (Hpos & Hu & _).
  apply is_uint_spec in Hu; apply Z.mod_small; lia.
Qed.

(** On a power of two [ALIGN_DOWN] subtracts the remainder. *)
Lemma align_down_mod (x a : Z) :
  is_uint x = true -> power_of_two a -> ALIGN_DOWN x a = x - x mod a.
Proof.
  intros Hx Ha; unfold ALIGN_DOWN.
  rewrite (low_mask a Ha), (land_uint_not _ _ Hx).
  destruct Ha as (k & Hk & ->).
  replace (2 ^ k - 1) with (Z.ones k) by (rewrite Z.ones_equiv; lia).
  rewrite <- Z.ldiff_land, Z.ldiff_ones_r by lia.
  rewrite Z.shiftl_mul_pow2, Z.shiftr_div_pow2 by lia.
  rewrite Z.mod_eq by lia; lia.
Qed.

Lemma align_up_down (x a : Z) :
  power_of_two a -> ALIGN_UP x a = ALIGN_DOWN (uint_wrap (x + (a - 1))) a.
Proof.
  intros Ha; unfold ALIGN_UP, ALIGN_DOWN; now rewrite (low_mask a Ha).
Qed.

(** X14. For an [unsigned int] [x] and an alignment that is a power of two,
    [ALIGN_DOWN] gives the largest multiple of the alignment that is not
    above [x]: a multiple, at most [x], less than one alignment below it;
    it is an [unsigned int] and aligning it again changes nothing. *)
Theorem align_down_largest_multiple (x align : Z) :
  is_uint x = true ->
  power_of_two align ->
  let r := ALIGN_DOWN x align in
  (align | r) /\ r <= x < r + align
  /\ is_uint r = true /\ ALIGN_DOWN r align = r.
Proof.
  intros Hx Ha r.
  destruct (power_of_two_range align Ha) as (Hpos & _ & _).
  assert (Hr : r = x - x mod align) by (apply align_down_mod; assumption).
  pose proof (Z.mod_pos_bound x align Hpos) as Hm.
  apply is_uint_spec in Hx.
  pose proof (Z.mod_le x align ltac:(lia) Hpos) as Hml.
  assert (Hdiv : (align | r)).
  { exists (x / align); rewrite Hr, Z.mod_eq by lia; lia. }
  assert (Hur : is_uint r = true) by (apply is_uint_spec; lia).
  repeat split; try lia; try assumption.
  rewrite (align_down_mod r align Hur Ha).
  destruct Hdiv as (q & ->); rewrite Z.mod_mul by lia; lia.
Qed.

Lemma align_down_largest_multiple_witness :
  (is_uint 77 = true /\ power_of_two 16)
  /\ (16 | ALIGN_DOWN 77 16) /\ ALIGN_DOWN 77 16 <= 77 < ALIGN_DOWN 77 16 + 16.
Proof.
  assert (H16 : power_of_two 16) by (exists 4; split; [lia|reflexivity]).
  split; [split; [reflexivity|exact H16]|].
  pose proof (align_down_largest_multiple 77 16 eq_refl H16) as H.
  simpl in H; tauto.
Defined.

(** X15. For an [unsigned int] [x] and a power-of-two alignment with
    [x + align - 1] still an [unsigned int], [ALIGN_UP] gives the least
    multiple of the alignment that is not below [x]; it is an
    [unsigned int], aligning it again changes nothing, and it equals
    [ALIGN_DOWN x align] exactly when [x] is a multiple already. *)
Theorem align_up_least_multiple (x align : Z) :
  is_uint x = true ->
  power_of_two align ->
  x + align - 1 <= UINT_MAX ->
  let r := ALIGN_UP x align in
  (align | r) /\ x <= r < x + align
  /\ (forall m, (align | m) -> x <= m -> r <= m)
  /\ is_uint r = true /\ ALIGN_UP r align = r
  /\ (r = ALIGN_DOWN x align <-> (align | x)).
Proof.
  intros Hx Ha Hfit r.
  destruct (power_of_two_range align Ha) as (Hpos & _ & Hd32).
  pose proof Hx as Hx'; apply is_uint_spec in Hx'.
  unfold UINT_MAX in Hfit.
  assert (Hy : is_uint (x + (align - 1)) = true) by (apply is_uint_spec; lia).
  assert (Hr : r = x + (align - 1) - (x + (align - 1)) mod align).
  { unfold r; rewrite (align_up_down x align Ha), (uint_wrap_small _ Hy).
    apply align_down_mod; assumption. }
  pose proof (Z.mod_pos_bound (x + (align - 1)) align Hpos) as Hm.
  assert (Hdiv : (align | r)).
  { exists ((x + (align - 1)) / align); rewrite Hr, Z.mod_eq by lia; lia. }
  assert (Hur : is_uint r = true) by (apply is_uint_spec; lia).
  assert (Hleast : forall m, (align | m) -> x <= m -> r <= m).
  { intros m (q & ->) Hle; destruct Hdiv as (q' & Hq').
    assert (q' <= q) by nia; nia. }
  assert (Hroom : r + align - 1 <= 2 ^ 32 - 1).
  { destruct Hdiv as (q' & Hq'); destruct Hd32 as (Q & HQ).
    assert (q' < Q) by nia; nia. }
  assert (Hxd : ALIGN_DOWN x align = x - x mod align)
    by (apply align_down_mod; assumption).
  pose proof (Z.mod_pos_bound x align Hpos) as Hmx.
  split; [exact Hdiv|split; [lia|split; [exact Hleast|split; [exact Hur|]]]].
  split.
  - rewrite (align_up_down r align Ha).
    rewrite uint_wrap_small by (apply is_uint_spec; lia).
    rewrite align_down_mod by (assumption || apply is_uint_spec; lia).
    destruct Hdiv as (q' & Hq').
    replace (r + (align - 1)) with (align - 1 + q' * align) by lia.
    rewrite Z.mod_add, Z.mod_small by lia; lia.
  - rewrite Hxd; split.
    + intros Heq.
      assert (Hz : x mod align = 0).
      { destruct Hdiv as (q' & Hq').
        assert (Hxm : (align | x - x mod align)).
        { exists (x / align); rewrite Z.mod_eq by lia; lia. }
        destruct Hxm as (q2 & Hq2); nia. }
      apply Z.mod_divide; [lia|exact Hz].
    + intros Hdx; apply Z.mod_divide in Hdx; [|lia].
      assert (r <= x) by (apply Hleast; [apply Z.mod_divide; lia|lia]).
      lia.
Qed.

Lemma align_up_least_multiple_witness :
  (is_uint 77 = true /\ power_of_two 16 /\ 77 + 16 - 1 <= UINT_MAX)
  /\ (16 | ALIGN_UP 77 16) /\ 77 <= ALIGN_UP 77 16 < 77 + 16.
Proof.
  assert (H16 : power_of_two 16) by (exists 4; split; [lia|reflexivity]).
  assert (Hfit : 77 + 16 - 1 <= UINT_MAX) by (unfold UINT_MAX; lia).
  split; [split; [reflexivity|split; [exact H16|exact Hfit]]|].
  pose proof (align_up_least_multiple 77 16 eq_refl H16 Hfit) as H.
  simpl in H; tauto.
Defined.

(** X16. The edges of [ALIGN_UP].  When [x + align - 1] no longer fits an
    [unsigned int] the sum wraps and the result is 0, below [x]; and with
    the alignment 0 the mask is empty, so [ALIGN_UP] and [ALIGN_DOWN] give 0
    for every argument, whatever [x] and [align] are. *)
Theorem align_up_wraps_to_zero (x align : Z) :
  is_uint x = true ->
  power_of_two align ->
  UINT_MAX < x + align - 1 ->
  ALIGN_UP x align = 0 /\ ALIGN_UP x align < x
  /\ (forall y, ALIGN_UP y 0 = 0 /\ ALIGN_DOWN y 0 = 0).
Proof.
  intros Hx Ha Hover.
  destruct (power_of_two_range align Ha) as (Hpos & Hua & _).
  apply is_uint_spec in Hua.
  pose proof Hx as Hx'; apply is_uint_spec in Hx'.
  unfold UINT_MAX in Hover.
  assert (Hw : uint_wrap (x + (align - 1)) = x + (align - 1) - 2 ^ 32).
  { unfold uint_wrap; symmetry; apply (Z.mod_unique _ _ 1); lia. }
  assert (Hzero : ALIGN_UP x align = 0).
  { rewrite (align_up_down x align Ha), Hw.
    rewrite align_down_mod by (assumption || apply is_uint_spec; lia).
    rewrite Z.mod_small by lia; lia. }
  assert (Hmask : uint_not (uint_wrap (0 - 1)) = 0) by reflexivity.
  split; [exact Hzero|split; [rewrite Hzero; lia|]].
  intros y; split.
  - unfold ALIGN_UP; rewrite Hmask; apply Z.land_0_r.
  - unfold ALIGN_DOWN; rewrite Hmask; apply Z.land_0_r.
Qed.

Lemma align_up_wraps_to_zero_witness :
  (is_uint 4294967290 = true /\ power_of_two 16
   /\ UINT_MAX < 4294967290 + 16 - 1)
  /\ ALIGN_UP 4294967290 16 = 0.
Proof.
  assert (H16 : power_of_two 16) by (exists 4; split; [lia|reflexivity]).
  assert (Hover : UINT_MAX < 4294967290 + 16 - 1) by (unfold UINT_MAX; lia).
  split; [split; [reflexivity|split; [exact H16|exact Hover]]|].
  apply (align_up_wraps_to_zero 4294967290 16 eq_refl H16 Hover).
Defined.

(** X21. [ALIGN_DOWN] and [ALIGN_UP] bracket their argument: for an
    [unsigned int] [x] and a power-of-two alignment with [x + align - 1]
    still an [unsigned int], [ALIGN_DOWN x align <= x <= ALIGN_UP x align];
    the two coincide when [x] is a multiple of the alignment and are
    exactly one alignment apart when it is not.  [ARCH_ALIGNMENT] is such
    an alignment, so this holds of [ALIGN_DOWN_ARCH] and [ALIGN_UP_ARCH]. *)
Theorem align_down_up_bracket (x align : Z) :
  is_uint x = true ->
  power_of_two align ->
  x + align - 1 <= UINT_MAX ->
  ALIGN_DOWN x align <= x <= ALIGN_UP x align
  /\ ((align | x) -> ALIGN_UP x align = ALIGN_DOWN x align)
  /\ (~ (align | x) -> ALIGN_UP x align = ALIGN_DOWN x align + align)
  /\ power_of_two ARCH_ALIGNMENT
  /\ (align = ARCH_ALIGNMENT ->
      ALIGN_DOWN_ARCH x <= x <= ALIGN_UP_ARCH x
      /\ (16 | ALIGN_DOWN_ARCH x) /\ (16 | ALIGN_UP_ARCH x)).
Proof.
  intros Hx Ha Hfit.
  destruct (power_of_two_range align Ha) as (Hpos & _ & _).
  pose proof Hx as Hx'; apply is_uint_spec in Hx'.
  unfold UINT_MAX in Hfit.
  assert (Hdown : ALIGN_DOWN x align = x - x mod align)
    by (apply align_down_mod; assumption).
  assert (Hup : ALIGN_UP x align
                = x + (align - 1) - (x + (align - 1)) mod align).
  { rewrite (align_up_down x align Ha).
    rewrite uint_wrap_small by (apply is_uint_spec; lia).
    apply align_down_mod; [apply is_uint_spec; lia|exact Ha]. }
  pose proof (Z.mod_pos_bound x align Hpos) as Hm.
  pose proof (Z.div_mod x align ltac:(lia)) as Hdm.
  assert (Hzero : x mod align = 0 ->
                  (x + (align - 1)) mod align = align - 1).
  { intros Hz; symmetry; apply (Z.mod_unique _ _ (x / align)); lia. }
  assert (Hpos' : x mod align <> 0 ->
                  (x + (align - 1)) mod align = x mod align - 1).
  { intros Hnz; symmetry; apply (Z.mod_unique _ _ (x / align + 1)); lia. }
  assert (Hbracket : ALIGN_DOWN x align <= x <= ALIGN_UP x align).
  { rewrite Hdown, Hup.
    destruct (Z.eq_dec (x mod align) 0) as [Hz|Hnz];
      [rewrite (Hzero Hz)|rewrite (Hpos' Hnz)]; lia. }
  assert (Hdd : (align | ALIGN_DOWN x align)).
  { exists (x / align); rewrite Hdown; lia. }
  assert (Hdu : (align | ALIGN_UP x align)).
  { rewrite Hup.
    destruct (Z.eq_dec (x mod align) 0) as [Hz|Hnz];
      [rewrite (Hzero Hz); exists (x / align)
      |rewrite (Hpos' Hnz); exists (x / align + 1)]; lia. }
  split; [exact Hbracket|].
  split; [|split; [|split]].
  - intros Hdiv; apply Z.mod_divide in Hdiv; [|lia].
    rewrite Hdown, Hup, (Hzero Hdiv); lia.
  - intros Hndiv.
    assert (Hnz : x mod align <> 0).
    { intros Hz; apply Hndiv; apply Z.mod_divide; [lia|exact Hz]. }
    rewrite Hdown, Hup, (Hpos' Hnz); lia.
  - exists 4; split; [lia|reflexivity].
  - intros ->; unfold ALIGN_DOWN_ARCH, ALIGN_UP_ARCH.
    split; [exact Hbracket|split; [exact Hdd|exact Hdu]].
Qed.

Lemma align_down_up_bracket_witness :
  (is_uint 77 = true /\ power_of_two 16 /\ 77 + 16 - 1 <= UINT_MAX)
  /\ ALIGN_DOWN 77 16 <= 77 <= ALIGN_UP 77 16.
Proof.
  assert (H16 : power_of_two 16) by (exists 4; split; [lia|reflexivity]).
  assert (Hfit : 77 + 16 - 1 <= UINT_MAX) by (unfold UINT_MAX; lia).
  split; [split; [reflexivity|split; [exact H16|exact Hfit]]|].
  exact (proj1 (align_down_up_bracket 77 16 eq_refl H16 Hfit)).
Defined.

End UtilsFacts.

(** ** token.c and lexer.c: releasing *)

Module ReleaseFacts.
Import C Token Release.









End ReleaseFacts.

(** ** lexer.c and token.c: more about the cursor and the scanner *)

Module TextFacts.
Import C CFacts Cursor LexerFacts Text.

Lemma run_span (s : string) : run s = span isalnum s.
Proof. induction s as [|c r IH]; simpl; [|rewrite IH]; reflexivity. Qed.

Lemma all_chars_span (p : ascii -> bool) (s : string) :
  all_chars p (span p s) = true.
Proof.
  induction s as [|c r IH]; simpl; [reflexivity|].
  destruct (p c) eqn:Hc; simpl; [now rewrite Hc|reflexivity].
Qed.

Lemma span_at (p : ascii -> bool) (s : string) (n : nat) :
  p NUL = false ->
  p (char_at s n) = true ->
  span p (drop n s) = String (char_at s n) (span p (drop (S n) s)).
Proof.
  intros Hnul Hc; destruct (drop_cases s n) as [[_ Hz]|Heq].
  - rewrite Hz, Hnul in Hc; discriminate Hc.
  - rewrite Heq at 1; simpl; now rewrite Hc.
Qed.

Lemma span_stop (p : ascii -> bool) (s : string) (n : nat) :
  p (char_at s n) = false -> span p (drop n s) = EmptyString.
Proof.
  intros Hc; destruct (drop_cases s n) as [ [-> _] | -> ]; simpl;
    [reflexivity|].
  now rewrite Hc.
Qed.

Lemma char_at_drop (s : string) (n k : nat) :
  char_at (drop n s) k = char_at s (n + k).
Proof.
  revert s; induction n as [|n IH]; intros [|c r]; simpl; auto.
Qed.

(** The character behind the span does not satisfy [p]. *)
Lemma span_end (p : ascii -> bool) (s : string) :
  p NUL = false -> p (char_at s (String.length (span p s))) = false.
Proof.
  intros Hnul; induction s as [|c r IH]; simpl; [exact Hnul|].
  destruct (p c) eqn:Hc; simpl; [exact IH|exact Hc].
Qed.

Lemma substring_span (p : ascii -> bool) (s : string) (n : nat) :
  substring n (String.length (span p (drop n s))) s = span p (drop n s).
Proof.
  revert s; induction n as [|n IH]; intros s.
  - simpl; induction s as [|c r IHs]; simpl; [reflexivity|].
    destruct (p c); simpl; [now rewrite IHs|reflexivity].
  - destruct s as [|c r]; simpl; [reflexivity|apply IH].
Qed.

Lemma is_blank_NUL : Lexer.is_blank NUL = false.
Proof. reflexivity. Qed.

Lemma isalnum_NUL : isalnum NUL = false.
Proof. reflexivity. Qed.

End TextFacts.

Module CursorMore.
Import C CFacts Token Machine TokenImpl Lexer Cursor LexerFacts ScannerFacts.
Import Text TextFacts.

#[local] Arguments Frost_lexerAdvance : simpl never.
#[local] Arguments Frost_initToken : simpl never.
#[local] Arguments Frost_lexerParseID : simpl never.
#[local] Arguments Frost_lexerAdvanceWith : simpl never.
#[local] Arguments allocate : simpl never.

(** X1. A lexer that [Frost_initLexer] returns is over the text it was
    given, with the cursor on its first character, all of the text still
    ahead, and the current character the terminator exactly when the text
    is empty; it satisfies the cursor invariant; and one request was made
    to the allocator. *)
Theorem initLexer_starts_at_first_char (source : option string)
        (h h' : allocator) (l : lexer_t) :
  Frost_initLexer source h = (Some l, h') ->
  Z.of_nat (strlen (Machine.source l)) <= PTRDIFF_MAX ->
  source = Some (Machine.source l)
  /\ lexer_inv l = true
  /\ index l = 0
  /\ current_char l = char_at (Machine.source l) 0
  /\ remaining l = strlen (Machine.source l)
  /\ (current_char l = NUL <-> strlen (Machine.source l) = 0%nat)
  /\ grant h = (true, h').
Proof.
  intros Hinit Hmax.
  destruct (initLexer_inv source h h' l Hinit Hmax) as (Hinv & Hidx).
  unfold Frost_initLexer in Hinit.
  destruct source as [text|]; [|discriminate].
  destruct (grant h) as [[|] h1] eqn:Hg; simpl in Hinit; [|discriminate].
  injection Hinit as <- <-; simpl in *.
  repeat split; try assumption; try reflexivity.
  - unfold remaining; simpl; lia.
  - intros Hz; destruct (Nat.eq_dec (strlen text) 0) as [H0|Hpos]; [exact H0|].
    exfalso; apply (char_at_before_strlen text 0); [lia|exact Hz].
  - intros H0; rewrite <- H0; apply char_at_strlen.
Qed.

Lemma initLexer_starts_at_first_char_witness :
  (Frost_initLexer (Some "if x") [true; false]
   = (Some (mkLexer "if x" "i" 4 0), [false])
   /\ Z.of_nat (strlen "if x") <= PTRDIFF_MAX)
  /\ lexer_inv (mkLexer "if x" "i" 4 0) = true
  /\ remaining (mkLexer "if x" "i" 4 0) = 4%nat.
Proof.
  split; [split; [reflexivity|vm_compute; discriminate]|].
  pose proof (initLexer_starts_at_first_char (Some "if x") [true; false]
                [false] (mkLexer "if x" "i" 4 0) eq_refl
                ltac:(vm_compute; discriminate)) as H.
  split; [apply H|apply H].
Defined.

(** [n] calls of [Frost_lexerAdvance] move the cursor [n] characters on, or
    to the end of the source when that is nearer. *)
Lemma advance_times_exact (n : nat) :
  forall (l : lexer_t) (h : allocator),
    lexer_inv l = true ->
    advance_times n (mkStore l h)
    = Done (FUNCTION_SUCESS,
            mkStore (at_index l (Z.min (index l + Z.of_nat n) (source_size l)))
                    h).
Proof.
  induction n as [|n IH]; intros l h Hinv.
  - pose proof Hinv as Hi; apply lexer_inv_spec in Hi.
    simpl; unfold ret; rewrite Z.add_0_r, Z.min_l by tauto.
    now rewrite at_index_self.
  - cbn [advance_times]; unfold bind.
    rewrite advance_eval by (apply lexer_inv_spec in Hinv; tauto).
    pose proof (advanced_inv (mkStore l h) Hinv) as Hinv'.
    pose proof Hinv as Hi; apply lexer_inv_spec in Hi.
    destruct Hi as (_ & Hle & _).
    rewrite Nat2Z.inj_succ.
    revert Hinv'; unfold advanced, can_advance; cbn [lexer_obj heap].
    destruct (Z.ltb_spec (index l) (source_size l)) as [Hlt|Hge];
      cbn [andb].
    + rewrite (eqb_NUL_false _ (inv_inside_not_NUL _ Hinv Hlt)); cbn [negb].
      intros Hinv'; rewrite (IH (moved l) h Hinv').
      change (index (moved l)) with (index l + 1).
      change (source_size (moved l)) with (source_size l).
      rewrite at_index_moved.
      replace (index l + 1 + Z.of_nat n) with (index l + Z.succ (Z.of_nat n))
        by lia.
      reflexivity.
    + intros _; rewrite (IH l h Hinv).
      rewrite !Z.min_r by lia; reflexivity.
Qed.



(** *** Skipping blanks *)

Lemma skip_blanks_exact (fuel : nat) :
  forall (l : lexer_t) (h : allocator),
    lexer_inv l = true ->
    (remaining l < fuel)%nat ->
    let gap := span is_blank (drop (Z.to_nat (index l)) (source l)) in
    skip_blanks fuel (mkStore l h)
    = Done (tt, mkStore (at_index l (index l + Z.of_nat (String.length gap)))
                        h).
Proof.
  induction fuel as [|fuel IH]; intros l h Hinv Hfuel; [lia|].
  destruct (inv_current_char l Hinv) as (Hcur & Hlo).
  simpl; unfold bind, deref; simpl.
  destruct (is_blank (current_char l)) eqn:Hb.
  - pose proof (is_blank_not_NUL _ Hb) as Hc.
    destruct (advance_over (mkStore l h) h Hinv Hc) as (Hadv & Hinv' & Hrem).
    simpl in Hadv, Hinv', Hrem; rewrite Hadv.
    rewrite (IH (moved l) h Hinv' ltac:(lia)).
    change (index (moved l)) with (index l + 1).
    change (source (moved l)) with (source l).
    replace (Z.to_nat (index l + 1)) with (S (Z.to_nat (index l))) by lia.
    rewrite Hcur in Hb.
    rewrite (span_at is_blank _ _ is_blank_NUL Hb), length_cons, Z.add_assoc.
    now rewrite at_index_moved.
  - rewrite Hcur in Hb; rewrite (span_stop _ _ _ Hb); simpl String.length.
    now rewrite Z.add_0_r, (at_index_self l Hinv).
Qed.

(** On a character that is no blank the loop leaves at once. *)
Lemma skip_blanks_fixed (fuel : nat) (l : lexer_t) (h : allocator) :
  is_blank (current_char l) = false ->
  skip_blanks (S fuel) (mkStore l h) = Done (tt, mkStore l h).
Proof.
  intros Hb; simpl; unfold bind, deref; simpl; now rewrite Hb.
Qed.

(** X3. From a state under the invariant, with fuel above the remaining
    characters, [Frost_lexerSkipWhiteSpace] returns success with the cursor
    moved over the longest stretch of space, tab, line feed and carriage
    return under it and no further: the characters stepped over are all
    blanks, they are the source text between the old and the new index, the
    character now under the cursor is no blank, and the allocator is not
    touched. *)
Theorem skipWhiteSpace_stops_at_first_nonblank (fuel : nat) (l : lexer_t)
        (h : allocator) :
  lexer_inv l = true ->
  (remaining l < fuel)%nat ->
  let gap := span is_blank (drop (Z.to_nat (index l)) (source l)) in
  let l' := at_index l (index l + Z.of_nat (String.length gap)) in
  Frost_lexerSkipWhiteSpace Obj fuel (mkStore l h)
  = Done (FUNCTION_SUCESS, mkStore l' h)
  /\ all_chars is_blank gap = true
  /\ substring (Z.to_nat (index l)) (String.length gap) (source l) = gap
  /\ is_blank (current_char l') = false.
Proof.
  intros Hinv Hfuel gap l'; repeat split.
  - unfold Frost_lexerSkipWhiteSpace, bind.
    now rewrite (skip_blanks_exact fuel l h Hinv Hfuel).
  - apply all_chars_span.
  - apply substring_span.
  - destruct (inv_current_char l Hinv) as (_ & Hlo).
    unfold l'; simpl.
    replace (Z.to_nat (index l + Z.of_nat (String.length gap)))
      with (Z.to_nat (index l) + String.length gap)%nat by lia.
    rewrite <- char_at_drop; apply span_end; reflexivity.
Qed.

Lemma skipWhiteSpace_stops_at_first_nonblank_witness :
  (lexer_inv (lexer_obj (start "  if" [])) = true
   /\ (remaining (lexer_obj (start "  if" [])) < 5)%nat)
  /\ Frost_lexerSkipWhiteSpace Obj 5 (start "  if" [])
     = Done (FUNCTION_SUCESS, mkStore (mkLexer "  if" "i" 4 2) []).
Proof.
  split; [split; [reflexivity|vm_compute; lia]|].
  apply (skipWhiteSpace_stops_at_first_nonblank 5
           (lexer_obj (start "  if" [])) []);
    [reflexivity|vm_compute; lia].
Defined.

(** X4. [Frost_lexerSkipWhiteSpace] is idempotent: from a state under the
    invariant, a second call right after the first returns success and
    changes nothing, so two calls in a row come to the same as one. *)
Theorem skipWhiteSpace_twice (fuel fuel' : nat) (l : lexer_t)
        (h : allocator) :
  lexer_inv l = true ->
  (remaining l < fuel)%nat ->
  (0 < fuel')%nat ->
  (Frost_lexerSkipWhiteSpace Obj fuel ;; Frost_lexerSkipWhiteSpace Obj fuel')
    (mkStore l h)
  = Frost_lexerSkipWhiteSpace Obj fuel (mkStore l h).
Proof.
  intros Hinv Hfuel Hpos.
  destruct (skip_blanks_returns fuel l h Hinv Hfuel) as (l' & Hrun & _ & Hnb).
  destruct fuel' as [|fuel']; [lia|].
  unfold Frost_lexerSkipWhiteSpace, bind; rewrite Hrun; unfold ret.
  now rewrite (skip_blanks_fixed fuel' l' h Hnb).
Qed.

Lemma skipWhiteSpace_twice_witness :
  (lexer_inv (lexer_obj (start "  if" [])) = true
   /\ (remaining (lexer_obj (start "  if" [])) < 5)%nat /\ (0 < 1)%nat)
  /\ (Frost_lexerSkipWhiteSpace Obj 5 ;; Frost_lexerSkipWhiteSpace Obj 1)
       (start "  if" [])
     = Frost_lexerSkipWhiteSpace Obj 5 (start "  if" []).
Proof.
  split; [repeat split; try reflexivity; vm_compute; lia|].
  apply (skipWhiteSpace_twice 5 1 (lexer_obj (start "  if" [])) []);
    [reflexivity|vm_compute; lia|lia].
Defined.

(** *** Looking ahead and behind *)

(** X7. Lookahead agrees with advancing: from a state under the invariant,
    [Frost_lexerPeek] at an offset [n] that is not negative returns the
    character that [n] calls of [Frost_lexerAdvance] would make the current
    one; at offset 0 this is the current character.  The peek itself
    changes nothing. *)
Theorem peek_is_char_after_advances (n : nat) (l : lexer_t) (h : allocator) :
  lexer_inv l = true ->
  Z.of_nat n <= INT_MAX ->
  (exists st',
      advance_times n (mkStore l h) = Done (FUNCTION_SUCESS, st')
      /\ Frost_lexerPeek Obj (Z.of_nat n) (mkStore l h)
         = Done (current_char (lexer_obj st'), mkStore l h))
  /\ Frost_lexerPeek Obj 0 (mkStore l h) = Done (current_char l, mkStore l h).
Proof.
  intros Hinv Hn.
  assert (Hpeek : forall k, Z.of_nat k <= INT_MAX ->
            Frost_lexerPeek Obj (Z.of_nat k) (mkStore l h)
            = Done (char_at (source l)
                      (Z.to_nat (Z.min (index l + Z.of_nat k) (source_size l))),
                    mkStore l h)).
  { intros k Hk.
    rewrite peek_eval by (assumption || unfold INT_MIN, INT_MAX in *; lia).
    destruct (inv_current_char l Hinv) as (_ & Hlo).
    unfold peek_index.
    destruct (Z.ltb_spec (index l + Z.of_nat k) 0); [lia|reflexivity]. }
  split.
  - eexists; split; [apply advance_times_exact; exact Hinv|].
    rewrite (Hpeek n Hn); reflexivity.
  - pose proof (Hpeek 0%nat ltac:(unfold INT_MAX; simpl; lia)) as H0.
    cbn [Z.of_nat] in H0; rewrite H0.
    pose proof Hinv as Hi; apply lexer_inv_spec in Hi.
    destruct Hi as (_ & Hle & Hcur).
    rewrite Z.add_0_r, Z.min_l by lia.
    now rewrite <- Hcur.
Qed.

Lemma peek_is_char_after_advances_witness :
  (lexer_inv (lexer_obj (start "abc" [])) = true /\ Z.of_nat 2 <= INT_MAX)
  /\ exists st',
       advance_times 2 (start "abc" []) = Done (FUNCTION_SUCESS, st')
       /\ Frost_lexerPeek Obj (Z.of_nat 2) (start "abc" [])
          = Done (current_char (lexer_obj st'), start "abc" []).
Proof.
  split; [split; [reflexivity|vm_compute; discriminate]|].
  apply (peek_is_char_after_advances 2 (lexer_obj (start "abc" [])) []);
    [reflexivity|vm_compute; discriminate].
Defined.

(** X8. Lookbehind agrees with advancing: from a state under the invariant
    on a character other than the terminator, after one
    [Frost_lexerAdvance] a peek at offset -1 returns the character the
    cursor has just left, and a peek at offset 0 the new current one. *)
Theorem peek_back_after_advance (l : lexer_t) (h : allocator) :
  lexer_inv l = true ->
  current_char l <> NUL ->
  exists st',
    Frost_lexerAdvance Obj (mkStore l h) = Done (FUNCTION_SUCESS, st')
    /\ index (lexer_obj st') = index l + 1
    /\ Frost_lexerPeek Obj (-1) st' = Done (current_char l, st')
    /\ Frost_lexerPeek Obj 0 st' = Done (current_char (lexer_obj st'), st').
Proof.
  intros Hinv Hc.
  destruct (advance_over (mkStore l h) h Hinv Hc) as (Hadv & Hinv' & _).
  simpl in Hadv, Hinv'.
  destruct (inv_current_char l Hinv) as (Hcur & Hlo).
  pose proof (inv_not_NUL_inside l Hinv Hc) as Hlt.
  exists (mkStore (moved l) h); repeat split; try assumption.
  - rewrite peek_eval by (assumption || unfold INT_MIN, INT_MAX; lia).
    unfold peek_index; simpl.
    destruct (Z.ltb_spec (index l + 1 + -1) 0); [lia|].
    rewrite Z.min_l by lia.
    replace (index l + 1 + -1) with (index l) by lia.
    now rewrite <- Hcur.
  - rewrite peek_eval by (assumption || unfold INT_MIN, INT_MAX; lia).
    unfold peek_index; simpl.
    destruct (Z.ltb_spec (index l + 1 + 0) 0); [lia|].
    rewrite Z.min_l by lia.
    now rewrite Z.add_0_r.
Qed.

Lemma peek_back_after_advance_witness :
  (lexer_inv (lexer_obj (start "abc" [])) = true
   /\ current_char (lexer_obj (start "abc" [])) <> NUL)
  /\ exists st',
       Frost_lexerAdvance Obj (start "abc" []) = Done (FUNCTION_SUCESS, st')
       /\ index (lexer_obj st') = 0 + 1
       /\ Frost_lexerPeek Obj (-1) st' = Done ("a"%char, st')
       /\ Frost_lexerPeek Obj 0 st' = Done (current_char (lexer_obj st'), st').
Proof.
  split; [split; [reflexivity|discriminate]|].
  apply (peek_back_after_advance (lexer_obj (start "abc" [])) []);
    [reflexivity|discriminate].
Defined.

End CursorMore.

(** ** lexer.c and token.c: identifiers, tokens and memory *)

Module ScannerMore.
Import C CFacts Token Machine TokenImpl Lexer Cursor LexerFacts ScannerFacts.
Import Text TextFacts.

#[local] Arguments Frost_lexerAdvance : simpl never.
#[local] Arguments Frost_initToken : simpl never.
#[local] Arguments Frost_lexerParseID : simpl never.
#[local] Arguments Frost_lexerAdvanceWith : simpl never.
#[local] Arguments allocate : simpl never.

(** *** The allocator *)

Lemma grant_firstn (k : nat) (h : allocator) :
  plentiful (firstn (S k) h)
  = fst (grant h) && plentiful (firstn k (snd (grant h)))
  /\ skipn (S k) h = skipn k (snd (grant h)).
Proof.
  destruct h as [|b t]; simpl.
  - now rewrite firstn_nil, skipn_nil.
  - split; reflexivity.
Qed.

Lemma allocate_grant (l : lexer_t) (h : allocator) :
  allocate (mkStore l h) = Done (fst (grant h), mkStore l (snd (grant h))).
Proof. unfold allocate; simpl; now destruct (grant h). Qed.

Lemma c_str_no_NUL (s : string) :
  strlen (c_str s) = String.length (c_str s) /\ c_str (c_str s) = c_str s.
Proof.
  induction s as [|c r [IHl IHc]]; simpl; [split; reflexivity|].
  destruct (Ascii.eqb c NUL) eqn:Hc; simpl; [split; reflexivity|].
  rewrite Hc; split; congruence.
Qed.

Lemma c_str_prefix (s : string) : prefix (c_str s) s = true.
Proof.
  induction s as [|c r IH]; simpl; [reflexivity|].
  destruct (Ascii.eqb c NUL); simpl; [reflexivity|].
  destruct (ascii_dec c c) as [_|Hne]; [exact IH|contradiction].
Qed.

Lemma c_str_whole (s : string) :
  strlen s = String.length s -> c_str s = s.
Proof.
  induction s as [|c r IH]; simpl; [reflexivity|].
  destruct (Ascii.eqb c NUL); [discriminate|].
  intros H; injection H as H; now rewrite IH.
Qed.

(** [Frost_initToken] makes two requests, and stops at the first refusal. *)
Lemma initToken_heap (text : string) (t : token_type_t) (l : lexer_t)
      (h : allocator) :
  (plentiful (firstn 2 h) = true ->
   Frost_initToken (Some text) t (mkStore l h)
   = Done (Some (mkToken (c_str text) t), mkStore l (skipn 2 h)))
  /\ (plentiful (firstn 2 h) = false ->
      exists h', Frost_initToken (Some text) t (mkStore l h)
                 = Done (None, mkStore l h')).
Proof.
  unfold Frost_initToken, bind, ret.
  destruct h as [|[|] [|[|] h2]]; split; intros Hp;
    try discriminate Hp; try reflexivity; eexists; reflexivity.
Qed.

(** X11. A token that [Frost_initToken] returns has the kind asked for and,
    as lexeme, the C string held in the text given: a prefix of the text
    with no terminator inside, the whole text when the text has none.  The
    call took exactly two answers from the allocator, both granting, and
    left the lexer alone; and making a token again from the lexeme of the
    token gives an equal token. *)
Theorem initToken_copies_c_string (text : string) (t : token_type_t)
        (st st' : store) (tok : token_t) :
  Frost_initToken (Some text) t st = Done (Some tok, st') ->
  type tok = t
  /\ prefix (lexeme tok) text = true
  /\ strlen (lexeme tok) = String.length (lexeme tok)
  /\ (strlen text = String.length text -> lexeme tok = text)
  /\ lexer_obj st' = lexer_obj st
  /\ plentiful (firstn 2 (heap st)) = true
  /\ heap st' = skipn 2 (heap st)
  /\ (forall st2, plentiful (firstn 2 (heap st2)) = true ->
       exists st3,
         Frost_initToken (Some (lexeme tok)) t st2 = Done (Some tok, st3)).
Proof.
  destruct st as [l h]; intros Hrun.
  destruct (initToken_heap text t l h) as [Hyes Hno].
  destruct (plentiful (firstn 2 h)) eqn:Hp.
  2:{ destruct (Hno eq_refl) as (h' & Hnone); congruence. }
  rewrite (Hyes eq_refl) in Hrun; injection Hrun as <- <-.
  cbn [lexeme type lexer_obj heap].
  repeat split; try reflexivity.
  - apply c_str_prefix.
  - apply c_str_no_NUL.
  - apply c_str_whole.
  - exact Hp.
  - intros [l2 h2] Hp2; cbn [heap] in Hp2.
    destruct (initToken_heap (c_str text) t l2 h2) as [Hyes2 _].
    rewrite (Hyes2 Hp2), (proj2 (c_str_no_NUL text)); eauto.
Qed.

Lemma initToken_copies_c_string_witness :
  Frost_initToken (Some "if") TOKEN_IF (start "if" [true; true; false])
  = Done (Some (mkToken "if" TOKEN_IF), start "if" [false])
  /\ type (mkToken "if" TOKEN_IF) = TOKEN_IF
  /\ prefix (lexeme (mkToken "if" TOKEN_IF)) "if" = true.
Proof.
  split; [reflexivity|].
  pose proof (initToken_copies_c_string "if" TOKEN_IF
                (start "if" [true; true; false]) (start "if" [false])
                (mkToken "if" TOKEN_IF) eq_refl) as H.
  split; apply H.
Defined.

(** *** [Frost_lexerParseID] *)

(** One round of the loop of [Frost_lexerParseID]. *)
Lemma gather_step (fuel : nat) (value : string) (l : lexer_t)
      (h : allocator) :
  gather (S fuel) value (mkStore l h)
  = if isalnum (current_char l)
    then
      if fst (grant h)
      then
        match Frost_lexerAdvance Obj (mkStore l (snd (grant h))) with
        | Done (_, st') =>
            gather fuel (value ++ String (current_char l) EmptyString) st'
        | OutOfBounds => OutOfBounds
        | OutOfFuel => OutOfFuel
        end
      else Done (None, mkStore l (snd (grant h)))
    else Frost_initToken (Some value) TOKEN_ID (mkStore l h).
Proof.
  simpl; unfold bind at 1, deref; simpl.
  destruct (isalnum (current_char l)); [|reflexivity].
  unfold bind at 1; rewrite allocate_grant.
  destruct (fst (grant h)); reflexivity.
Qed.

(** The loop of [Frost_lexerParseID] against any allocator: one request for
    each character gathered, then the two of [Frost_initToken]. *)
Lemma gather_heap (fuel : nat) :
  forall (value : string) (l : lexer_t) (h : allocator),
    lexer_inv l = true ->
    (remaining l < fuel)%nat ->
    let word := run (drop (Z.to_nat (index l)) (source l)) in
    let need := S (S (String.length word)) in
    (plentiful (firstn need h) = true ->
     gather fuel value (mkStore l h)
     = Done (Some (mkToken (c_str (value ++ word)) TOKEN_ID),
             mkStore (at_index l (index l + Z.of_nat (String.length word)))
                     (skipn need h)))
    /\ (plentiful (firstn need h) = false ->
        exists l' h', gather fuel value (mkStore l h)
                      = Done (None, mkStore l' h')).
Proof.
  induction fuel as [|fuel IH]; intros value l h Hinv Hfuel; [lia|].
  destruct (inv_current_char l Hinv) as (Hcur & Hlo).
  cbv zeta; rewrite gather_step.
  destruct (isalnum (current_char l)) eqn:Hal.
  - pose proof (isalnum_not_NUL _ Hal) as Hc.
    rewrite Hcur in Hal; rewrite (run_at_alnum _ _ Hal).
    rewrite <- Hcur.
    cbn [String.length].
    destruct (grant_firstn (S (S (String.length
                (run (drop (S (Z.to_nat (index l))) (source l)))))) h)
      as (-> & ->).
    destruct (fst (grant h)); cbn [andb];
      [|split; [discriminate|intros _; eauto]].
    destruct (advance_over (mkStore l h) (snd (grant h)) Hinv Hc)
      as (Hadv & Hinv' & Hrem).
    cbn [lexer_obj] in Hadv, Hinv', Hrem; rewrite Hadv.
    destruct (IH (value ++ String (current_char l) EmptyString)%string
                 (moved l) (snd (grant h)) Hinv' ltac:(lia)) as [Hyes Hno].
    change (index (moved l)) with (index l + 1) in Hyes, Hno.
    change (source (moved l)) with (source l) in Hyes, Hno.
    replace (Z.to_nat (index l + 1)) with (S (Z.to_nat (index l)))
      in Hyes, Hno by lia.
    rewrite append_snoc, at_index_moved in Hyes.
    split; [|exact Hno].
    intros Hp; rewrite (Hyes Hp).
    rewrite Nat2Z.inj_succ.
    replace (index l + 1 + Z.of_nat (String.length
               (run (drop (S (Z.to_nat (index l))) (source l)))))
      with (index l + Z.succ (Z.of_nat (String.length
               (run (drop (S (Z.to_nat (index l))) (source l)))))) by lia.
    reflexivity.
  - rewrite Hcur in Hal; rewrite (run_at_other _ _ Hal).
    cbn [String.length Z.of_nat].
    rewrite Z.add_0_r, append_empty_r, (at_index_self l Hinv).
    destruct (initToken_heap value TOKEN_ID l h) as [Hyes Hno].
    split; [exact Hyes|].
    intros Hp; destruct (Hno Hp) as (h' & ->); eauto.
Qed.

(** [Frost_lexerParseID] against any allocator. *)
Lemma parseID_heap (fuel : nat) (l : lexer_t) (h : allocator) :
  lexer_inv l = true ->
  (remaining l < fuel)%nat ->
  let word := run (drop (Z.to_nat (index l)) (source l)) in
  let need := S (S (S (String.length word))) in
  (plentiful (firstn need h) = true ->
   Frost_lexerParseID Obj fuel (mkStore l h)
   = Done (Some (mkToken word TOKEN_ID),
           mkStore (at_index l (index l + Z.of_nat (String.length word)))
                   (skipn need h)))
  /\ (plentiful (firstn need h) = false ->
      exists st', Frost_lexerParseID Obj fuel (mkStore l h)
                  = Done (None, st')).
Proof.
  intros Hinv Hfuel word need; unfold need.
  destruct (grant_firstn (S (S (String.length word))) h) as (-> & ->).
  unfold Frost_lexerParseID, bind; rewrite allocate_grant.
  destruct (fst (grant h)); cbn [andb negb];
    [|split; [discriminate|intros _; unfold ret; eauto]].
  destruct (gather_heap fuel EmptyString l (snd (grant h)) Hinv Hfuel)
    as [Hyes Hno].
  fold word in Hyes, Hno.
  split.
  - intros Hp; rewrite (Hyes Hp).
    change (EmptyString ++ word)%string with word.
    unfold word; now rewrite c_str_run.
  - intros Hp; destruct (Hno Hp) as (l' & h' & ->); eauto.
Qed.

(** X6. What [Frost_lexerParseID] costs: with [n] letters and digits under
    the cursor it makes [n + 3] requests to the allocator (the empty
    buffer, one [realloc] for each character, the token and the copy of the
    lexeme).  It returns the identifier exactly when all of them are
    granted, leaving the allocator [n + 3] answers further; as soon as one
    is refused it returns no token. *)
Theorem parseID_needs_length_plus_three (fuel : nat) (l : lexer_t)
        (h : allocator) :
  lexer_inv l = true ->
  (remaining l < fuel)%nat ->
  let word := run (drop (Z.to_nat (index l)) (source l)) in
  let need := (String.length word + 3)%nat in
  (plentiful (firstn need h) = true ->
   Frost_lexerParseID Obj fuel (mkStore l h)
   = Done (Some (mkToken word TOKEN_ID),
           mkStore (at_index l (index l + Z.of_nat (String.length word)))
                   (skipn need h)))
  /\ (plentiful (firstn need h) = false ->
      exists st', Frost_lexerParseID Obj fuel (mkStore l h)
                  = Done (None, st')).
Proof.
  intros Hinv Hfuel word need.
  replace need with (S (S (S (String.length word)))) by (unfold need; lia).
  apply parseID_heap; assumption.
Qed.

Lemma parseID_needs_length_plus_three_witness :
  (lexer_inv (lexer_obj (start "ab+" [])) = true
   /\ (remaining (lexer_obj (start "ab+" [])) < 4)%nat)
  /\ Frost_lexerParseID Obj 4
       (start "ab+" [true; true; true; true; true; false])
     = Done (Some (mkToken "ab" TOKEN_ID),
             mkStore (mkLexer "ab+" "+" 3 2) [false]).
Proof.
  split; [split; [reflexivity|vm_compute; lia]|].
  apply (proj1 (parseID_needs_length_plus_three 4
                  (lexer_obj (start "ab+" []))
                  [true; true; true; true; true; false]
                  eq_refl ltac:(vm_compute; lia))).
  reflexivity.
Defined.

(** X5. Maximal munch in [Frost_lexerParseID]: from a state under the
    invariant, with memory granted, the token returned has the kind
    [TOKEN_ID]; its lexeme is made of letters and digits only and is the
    source text between the old and the new index; the cursor has moved by
    exactly the length of the lexeme, and the character now under it is no
    letter or digit.  On a character that is no letter or digit the lexeme
    is empty and the lexer is unchanged. *)
Theorem parseID_takes_longest_run (fuel : nat) (l : lexer_t) (h : allocator) :
  lexer_inv l = true ->
  plentiful h = true ->
  (remaining l < fuel)%nat ->
  exists tok st',
    Frost_lexerParseID Obj fuel (mkStore l h) = Done (Some tok, st')
    /\ type tok = TOKEN_ID
    /\ all_chars isalnum (lexeme tok) = true
    /\ substring (Z.to_nat (index l)) (String.length (lexeme tok)) (source l)
       = lexeme tok
    /\ index (lexer_obj st') = index l + Z.of_nat (String.length (lexeme tok))
    /\ isalnum (current_char (lexer_obj st')) = false
    /\ (isalnum (current_char l) = false ->
        lexeme tok = EmptyString /\ lexer_obj st' = l).
Proof.
  intros Hinv Hp Hfuel.
  destruct (parseID_exact fuel l h Hinv Hp Hfuel) as (h' & Hrun & _ & _).
  destruct (inv_current_char l Hinv) as (Hcur & Hlo).
  do 2 eexists; split; [exact Hrun|]; simpl.
  rewrite !run_span.
  split; [reflexivity|].
  split; [apply all_chars_span|].
  split; [apply substring_span|].
  split; [reflexivity|].
  split.
  - replace (Z.to_nat (index l + Z.of_nat (String.length
               (span isalnum (drop (Z.to_nat (index l)) (source l))))))
      with (Z.to_nat (index l) + String.length
               (span isalnum (drop (Z.to_nat (index l)) (source l))))%nat
      by lia.
    rewrite <- char_at_drop; apply span_end; reflexivity.
  - intros Hal; rewrite Hcur in Hal; rewrite (span_stop _ _ _ Hal).
    split; [reflexivity|].
    simpl String.length; now rewrite Z.add_0_r, at_index_self.
Qed.

Lemma parseID_takes_longest_run_witness :
  (lexer_inv (lexer_obj (start "ab_c" [])) = true
   /\ plentiful [] = true
   /\ (remaining (lexer_obj (start "ab_c" [])) < 5)%nat)
  /\ exists tok st',
       Frost_lexerParseID Obj 5 (start "ab_c" []) = Done (Some tok, st')
       /\ type tok = TOKEN_ID
       /\ all_chars isalnum (lexeme tok) = true.
Proof.
  split; [repeat split; try reflexivity; vm_compute; lia|].
  destruct (parseID_takes_longest_run 5 (lexer_obj (start "ab_c" [])) []
              eq_refl eq_refl ltac:(vm_compute; lia))
    as (tok & st' & Hrun & Hty & Hall & _).
  exists tok, st'; repeat split; assumption.
Defined.

(** *** [Frost_nextToken] *)

(** X9. Whatever the pointer, the fuel and the store, a token comes out of
    [Frost_nextToken] only for a lexer that is not null and stands on a
    character, other than the terminator, that [isaalpha] accepts; and its
    kind is always [TOKEN_ID], code 0: never a keyword kind, never
    [TOKEN_IDENTIFIER], never [TOKEN_EOF]. *)
Theorem nextToken_only_makes_TOKEN_ID (isaalpha : ascii -> bool)
        (lexer : lexer_ptr) (fuel : nat) (st st' : store) (tok : token_t) :
  Frost_nextToken isaalpha lexer fuel st = Done (Some tok, st') ->
  lexer = Obj
  /\ current_char (lexer_obj st) <> NUL
  /\ isaalpha (current_char (lexer_obj st)) = true
  /\ type tok = TOKEN_ID
  /\ token_code (type tok) = 0
  /\ type tok <> TOKEN_IDENTIFIER
  /\ type tok <> TOKEN_EOF.
Proof.
  intros Hrun.
  destruct lexer; [discriminate Hrun|].
  unfold Frost_nextToken in Hrun.
  pose proof (scan_kind isaalpha fuel st st' tok Hrun) as Hkind.
  destruct fuel as [|fuel]; [discriminate Hrun|].
  destruct (Ascii.eqb_spec (current_char (lexer_obj st)) NUL) as [Hc|Hc].
  { rewrite (scan_at_end isaalpha fuel st Hc) in Hrun; discriminate Hrun. }
  destruct (isaalpha (current_char (lexer_obj st))) eqn:Ha.
  2:{ rewrite (scan_stalls isaalpha (S fuel) st Hc Ha) in Hrun.
      discriminate Hrun. }
  rewrite Hkind; repeat split; try assumption; discriminate.
Qed.

Lemma nextToken_only_makes_TOKEN_ID_witness :
  Frost_nextToken isalpha Obj 8 (start "while" [])
  = Done (Some (mkToken "while" TOKEN_ID),
          mkStore (mkLexer "while" NUL 5 5) [])
  /\ type (mkToken "while" TOKEN_ID) = TOKEN_ID
  /\ type (mkToken "while" TOKEN_ID) <> TOKEN_EOF.
Proof.
  assert (Hrun : Frost_nextToken isalpha Obj 8 (start "while" [])
                 = Done (Some (mkToken "while" TOKEN_ID),
                         mkStore (mkLexer "while" NUL 5 5) []))
    by (vm_compute; reflexivity).
  split; [exact Hrun|].
  pose proof (nextToken_only_makes_TOKEN_ID isalpha Obj 8 (start "while" [])
                _ _ Hrun) as H.
  split; apply H.
Defined.

(** X20. [Frost_nextToken] and memory: from a state under the invariant on
    a character that [isaalpha] accepts, with [n] letters and digits under
    the cursor, the call returns the identifier exactly when the next
    [n + 3] answers of the allocator all grant; when one of them refuses it
    returns the null pointer, without stepping over a further character. *)
Theorem nextToken_needs_length_plus_three (isaalpha : ascii -> bool)
        (fuel : nat) (l : lexer_t) (h : allocator) :
  lexer_inv l = true ->
  current_char l <> NUL ->
  isaalpha (current_char l) = true ->
  (remaining l + 1 < fuel)%nat ->
  let word := run (drop (Z.to_nat (index l)) (source l)) in
  let need := (String.length word + 3)%nat in
  (plentiful (firstn need h) = true ->
   exists st', Frost_nextToken isaalpha Obj fuel (mkStore l h)
               = Done (Some (mkToken word TOKEN_ID), st')
               /\ heap st' = skipn need h)
  /\ (plentiful (firstn need h) = false ->
      exists st', Frost_nextToken isaalpha Obj fuel (mkStore l h)
                  = Done (None, st')
                  /\ Frost_lexerParseID Obj (Nat.pred fuel) (mkStore l h)
                     = Done (None, st')).
Proof.
  intros Hinv Hc Ha Hfuel word need.
  replace need with (S (S (S (String.length word)))) by (unfold need; lia).
  destruct fuel as [|fuel]; [lia|].
  destruct (parseID_heap fuel l h Hinv ltac:(lia)) as [Hyes Hno].
  fold word in Hyes, Hno.
  assert (Hstep : Frost_nextToken isaalpha Obj (S fuel) (mkStore l h)
                  = (id <- Frost_lexerParseID Obj fuel ;;
                     Frost_lexerAdvanceWith Obj id) (mkStore l h)).
  { unfold Frost_nextToken; simpl; unfold bind at 1, deref; simpl.
    now rewrite (eqb_NUL_false _ Hc), Ha. }
  rewrite Hstep; unfold bind; split; intros Hp.
  - pose proof (parseID_run fuel l h Hinv) as Hfol.
    rewrite (Hyes Hp) in Hfol; rewrite (Hyes Hp).
    destruct Hfol as (Hi & _); cbn [lexer_obj] in Hi.
    unfold Frost_lexerAdvanceWith, bind.
    rewrite advance_eval by (apply lexer_inv_spec in Hi; tauto).
    eexists; split; [reflexivity|].
    now rewrite advanced_heap.
  - destruct (Hno Hp) as (st' & Hnone); rewrite Hnone.
    exists st'; split; [reflexivity|exact Hnone].
Qed.

Lemma nextToken_needs_length_plus_three_witness :
  (lexer_inv (lexer_obj (start "ab+" [])) = true
   /\ current_char (lexer_obj (start "ab+" [])) <> NUL
   /\ isalpha (current_char (lexer_obj (start "ab+" []))) = true
   /\ (remaining (lexer_obj (start "ab+" [])) + 1 < 6)%nat)
  /\ exists st',
       Frost_nextToken isalpha Obj 6 (start "ab+" [true; true; false])
       = Done (None, st')
       /\ Frost_lexerParseID Obj (Nat.pred 6)
            (start "ab+" [true; true; false])
          = Done (None, st').
Proof.
  split; [repeat split; try reflexivity; try discriminate; vm_compute; lia|].
  apply (proj2 (nextToken_needs_length_plus_three isalpha 6
                  (lexer_obj (start "ab+" [])) [true; true; false]
                  eq_refl ltac:(discriminate) eq_refl
                  ltac:(vm_compute; lia))).
  reflexivity.
Defined.

(** X10. Two calls in a row.  From a state under the invariant, with memory
    granted, on a character that [isaalpha] accepts: when the run of
    letters and digits under the cursor is followed by one character and
    then by another character that [isaalpha] accepts, the first call
    returns the run and leaves the cursor one past the follower, and the
    second call returns the run that starts there.  The follower is no
    letter or digit and is in neither lexeme. *)
Theorem nextToken_twice_skips_one_char (isaalpha : ascii -> bool)
        (fuel : nat) (l : lexer_t) (h : allocator) :
  lexer_inv l = true ->
  plentiful h = true ->
  current_char l <> NUL ->
  isaalpha (current_char l) = true ->
  (remaining l + 1 < fuel)%nat ->
  let first := run (drop (Z.to_nat (index l)) (source l)) in
  let after := index l + Z.of_nat (String.length first) in
  after < source_size l ->
  char_at (source l) (Z.to_nat (after + 1)) <> NUL ->
  isaalpha (char_at (source l) (Z.to_nat (after + 1))) = true ->
  exists st1 st2,
    Frost_nextToken isaalpha Obj fuel (mkStore l h)
    = Done (Some (mkToken first TOKEN_ID), st1)
    /\ index (lexer_obj st1) = after + 1
    /\ isalnum (char_at (source l) (Z.to_nat after)) = false
    /\ Frost_nextToken isaalpha Obj fuel st1
       = Done (Some (mkToken (run (drop (Z.to_nat (after + 1)) (source l)))
                            TOKEN_ID), st2).
Proof.
  intros Hinv Hp Hc Ha Hfuel first after Hsep Hc2 Ha2.
  destruct fuel as [|fuel]; [lia|].
  destruct (scan_word isaalpha fuel l h Hinv Hp Hc Ha ltac:(lia))
    as (h1 & Hrun1 & Hp1 & Hi1).
  fold first in Hrun1, Hi1; fold after in Hrun1, Hi1.
  destruct (inv_current_char l Hinv) as (_ & Hlo).
  assert (Hlive : current_char (at_index l after) <> NUL).
  { apply (inv_inside_not_NUL _ Hi1); exact Hsep. }
  pose proof (advanced_inv (mkStore (at_index l after) h1) Hi1) as Hi2.
  rewrite (advanced_moves (mkStore (at_index l after) h1) Hi1 Hlive)
    in Hrun1, Hi2.
  cbn [lexer_obj heap] in Hrun1, Hi2.
  change (moved (at_index l after)) with (at_index l (after + 1))
    in Hrun1, Hi2.
  assert (Hrem : (remaining (at_index l (after + 1)) < fuel)%nat).
  { unfold remaining in *; simpl; lia. }
  destruct (scan_word isaalpha fuel (at_index l (after + 1)) h1 Hi2 Hp1
              Hc2 Ha2 Hrem) as (h2 & Hrun2 & _ & _).
  do 2 eexists; split; [exact Hrun1|].
  split; [reflexivity|].
  split; [|exact Hrun2].
  unfold after, first; rewrite run_span.
  replace (Z.to_nat (index l + Z.of_nat (String.length
             (span isalnum (drop (Z.to_nat (index l)) (source l))))))
    with (Z.to_nat (index l) + String.length
             (span isalnum (drop (Z.to_nat (index l)) (source l))))%nat
    by lia.
  rewrite <- char_at_drop; apply span_end; reflexivity.
Qed.

Lemma nextToken_twice_skips_one_char_witness :
  (lexer_inv (lexer_obj (start "ab+cd" [])) = true
   /\ plentiful [] = true
   /\ current_char (lexer_obj (start "ab+cd" [])) <> NUL
   /\ isalpha (current_char (lexer_obj (start "ab+cd" []))) = true
   /\ (remaining (lexer_obj (start "ab+cd" [])) + 1 < 8)%nat
   /\ 0 + Z.of_nat (String.length "ab") < 5
   /\ char_at "ab+cd" 3 <> NUL
   /\ isalpha (char_at "ab+cd" 3) = true)
  /\ exists st1 st2,
       Frost_nextToken isalpha Obj 8 (start "ab+cd" [])
       = Done (Some (mkToken "ab" TOKEN_ID), st1)
       /\ index (lexer_obj st1) = 3
       /\ isalnum "+" = false
       /\ Frost_nextToken isalpha Obj 8 st1
          = Done (Some (mkToken "cd" TOKEN_ID), st2).
Proof.
  split;
    [repeat split; try reflexivity; try discriminate; vm_compute; lia|].
  destruct (nextToken_twice_skips_one_char isalpha 8
              (lexer_obj (start "ab+cd" [])) []
              eq_refl eq_refl ltac:(discriminate) eq_refl
              ltac:(vm_compute; lia) eq_refl ltac:(discriminate) eq_refl)
    as (st1 & st2 & Hone & Hidx & Hsep & Htwo).
  exists st1, st2; repeat split; [exact Hone|exact Hidx|exact Htwo].
Defined.

End ScannerMore.
